(** * Sunstone: the plugin registry and the dependency collection

    A shallow embedding of [Registry] (set / get / del / plugin, resolve,
    satisfy, prioritize) and of [DependencyCollection] (constructor, values),
    followed by the properties established about them.

    Conventions of the embedding.
    - A JavaScript object used as a property table is an association list
      kept in property-creation order; [keys] and [values] enumerate it the
      way [Object.keys] and lodash's [_.values] do (array-index keys first,
      ascending, then the other keys in creation order).  The table holds
      the own properties; what an object created by [{}] inherits from
      [Object.prototype] is told by [JsObject.inherited].  The name
      [__proto__], an assignment to which sets the prototype and creates
      no property, is outside the tables: the properties that write to a
      table exclude it.
    - Plugin objects live in a store and are denoted by references
      ([loc]); [===] and [Array.prototype.indexOf] compare references.
    - A thrown [Error] is a value carrying its message; a function that can
      throw returns a [completion] together with the state it leaves.
    - [satisfy] is recursive without a measure: it takes the depth of
      recursion allowed as fuel and answers [None] when the depth does not
      suffice.
    - [semver.satisfies], the injector's [get], the constructor of
      [Plugin] and [plugin.initialize] belong to modules outside these
      sources and are parameters.  [glob] and [require] (file system and
      module loading) and [Registry.filter] (a method of
      [PluginCollection]) are not modelled. *)

From Stdlib Require Import List String Ascii Bool Arith NArith Lia.
From Stdlib Require Import Permutation ListDec Relations.
Import ListNotations.
Local Open Scope string_scope.
Local Open Scope list_scope.

(** ** JavaScript objects as ordered property tables *)

Module JsObject.

Section Table.
Context {V : Type}.

(** Own properties, oldest first. *)
Definition obj : Type := list (string * V).

Definition empty : obj := [].

(** The own property [k] of [o]: [o[k]] when [o] has it, [None] when it
    has not (when [o[k]] is [undefined], or is inherited, see
    [inherited]). *)
Fixpoint get (o : obj) (k : string) : option V :=
  match o with
  | [] => None
  | (k', v) :: o' => if String.eqb k k' then Some v else get o' k
  end.

(** [o[k] = v], for [k] other than [__proto__]: an existing property keeps
    its place, a new one is created last. *)
Fixpoint put (o : obj) (k : string) (v : V) : obj :=
  match o with
  | [] => [(k, v)]
  | (k', v') :: o' =>
      if String.eqb k k' then (k, v) :: o' else (k', v') :: put o' k v
  end.

(** [delete o[k]]: the properties created by assignment are configurable,
    so the operator answers [true] whether or not the property exists. *)
Definition delete (o : obj) (k : string) : bool * obj :=
  (true, filter (fun e => negb (String.eqb k (fst e))) o).

(** Array indices: canonical decimal numerals below 2^32 - 1. *)
Definition digit (c : ascii) : option N :=
  let n := N_of_ascii c in
  if (48 <=? n)%N && (n <=? 57)%N then Some (n - 48)%N else None.

Fixpoint digits (acc : N) (s : string) : option N :=
  match s with
  | EmptyString => Some acc
  | String c s' =>
      match digit c with
      | Some d => digits (10 * acc + d)%N s'
      | None => None
      end
  end.

Definition array_index (s : string) : option N :=
  match s with
  | EmptyString => None
  | String "0"%char EmptyString => Some 0%N
  | String "0"%char _ => None
  | _ =>
      if Nat.ltb 10 (String.length s) then None else
      match digits 0 s with
      | Some n => if (n <? 4294967295)%N then Some n else None
      | None => None
      end
  end.

Fixpoint insert_by_index (n : N) (e : string * V)
    (l : list (N * (string * V))) : list (N * (string * V)) :=
  match l with
  | [] => [(n, e)]
  | (m, e') :: l' =>
      if (n <? m)%N then (n, e) :: l else (m, e') :: insert_by_index n e l'
  end.

Fixpoint index_entries (o : obj) : list (N * (string * V)) :=
  match o with
  | [] => []
  | e :: o' =>
      match array_index (fst e) with
      | Some n => insert_by_index n e (index_entries o')
      | None => index_entries o'
      end
  end.

Definition named_entries (o : obj) : obj :=
  filter (fun e => match array_index (fst e) with
                   | None => true
                   | Some _ => false
                   end) o.

(** The order of [Object.keys]. *)
Definition own_entries (o : obj) : obj :=
  map snd (index_entries o) ++ named_entries o.

(** [Object.keys(o)] *)
Definition keys (o : obj) : list string := map fst (own_entries o).

(** [_.values(o)] *)
Definition values (o : obj) : list V := map snd (own_entries o).

End Table.

Arguments obj : clear implicits.

(** The properties of [Object.prototype], which every object created by
    [{}] inherits. *)
Definition Object_prototype : list string :=
  ["constructor"; "__defineGetter__"; "__defineSetter__"; "hasOwnProperty";
   "__lookupGetter__"; "__lookupSetter__"; "isPrototypeOf";
   "propertyIsEnumerable"; "toString"; "valueOf"; "__proto__";
   "toLocaleString"].

(** Does an object created by [{}] inherit a property [k]?  Reading
    [o[k]] then gives a function or an object even when [o] has no own
    property [k]. *)
Definition inherited (k : string) : bool :=
  existsb (String.eqb k) Object_prototype.

(** [_.values(x)] and [Object.keys(x || {})] where [x] may be [undefined]. *)
Definition values_opt {V} (o : option (obj V)) : list V :=
  match o with
  | Some t => values t
  | None => []
  end.

(** [x || {}] *)
Definition or_empty {V} (o : option (obj V)) : obj V :=
  match o with
  | Some t => t
  | None => empty
  end.

End JsObject.

(** ** Errors and completions *)

(** [new Error(message)], and the [TypeError] the engine throws. *)
Inductive Error : Type :=
| mkError (message : string)
| mkTypeError (message : string).

Definition message (e : Error) : string :=
  match e with
  | mkError m => m
  | mkTypeError m => m
  end.

(** The error of reading [undefined.property]; the wording is the
    engine's. *)
Definition TypeError_of_undefined (property : string) : Error :=
  mkTypeError ("Cannot read property '" ++ property ++ "' of undefined").

(** The errors of the registry, named after the kinds the specification
    gives them; each is the plain [Error] the source builds. *)
Definition TypeMismatchError (json : string) : Error :=
  mkError (json ++ " is not a Plugin instance.").

Definition MissingDependencyError (name : string) : Error :=
  mkError ("Dependency " ++ name ++ " missing.").

Definition VersionMismatchError (name version range : string) : Error :=
  mkError (name ++ " " ++ version ++ " does not satisfy " ++ range ++ ".").

(** Does the text [s] occur in [msg]? *)
Definition mentions (s msg : string) : bool :=
  match String.index 0 s msg with
  | Some _ => true
  | None => false
  end.

Inductive completion (A : Type) : Type :=
| Return (a : A)
| Throw (e : Error).

Arguments Return {A} a.
Arguments Throw {A} e.

(** ** DependencyCollection *)

Module DependencyCollection.

(** An injector descriptor; [factory] is not read by the collection. *)
Record Descriptor : Type := {
  name : string;
  type : string
}.

(** The argument of the constructor: an object of descriptors or an array
    of them (as [filter] passes). *)
Inductive source : Type :=
| FromObject (o : JsObject.obj Descriptor)
| FromArray (l : list Descriptor).

(** [_.values(collection)] *)
Definition lodash_values (collection : source) : list Descriptor :=
  match collection with
  | FromObject o => JsObject.values o
  | FromArray l => l
  end.

Section Bound.

(** The injector the collection is bound to: its state, the instances it
    resolves to, and its [get] method, which may throw and may change the
    injector (a factory result is cached). *)
Variable Injector : Type.
Variable Instance : Type.
Variable injector_get : string -> Injector -> completion Instance * Injector.

(** [constructor (collection, _injector)]: every item is pushed, in order.
    The binding [this[injector]] is the injector state threaded through
    [values]. *)
Definition constructor (collection : source) : list Descriptor :=
  fold_left (fun this item => this ++ [item]) (lodash_values collection) [].

(** [this.map(descriptor => this[injector].get(descriptor.name))] *)
Fixpoint values (this : list Descriptor) (inj : Injector)
  : completion (list Instance) * Injector :=
  match this with
  | [] => (Return [], inj)
  | descriptor :: rest =>
      match injector_get (name descriptor) inj with
      | (Throw e, inj') => (Throw e, inj')
      | (Return v, inj1) =>
          match values rest inj1 with
          | (Return vs, inj2) => (Return (v :: vs), inj2)
          | (Throw e, inj2) => (Throw e, inj2)
          end
      end
  end.

(** The injector as the callback of [values] finds it at position [i]:
    defined when the calls for the positions before [i] all returned. *)
Fixpoint injector_at (this : list Descriptor) (inj : Injector) (i : nat)
  : option Injector :=
  match i, this with
  | 0, _ => Some inj
  | S i', [] => None
  | S i', descriptor :: rest =>
      match injector_get (name descriptor) inj with
      | (Return _, inj1) => injector_at rest inj1 i'
      | (Throw _, _) => None
      end
  end.

End Bound.

(** What [filter] may be handed, as lodash's [_.filter] reads it: a
    function of (value, index, array), or an object to be matched, here on
    the two fields a descriptor carries (a field left out of the object,
    [None], matches anything). *)
Inductive predicate : Type :=
| ByFunction (f : Descriptor -> nat -> list Descriptor -> bool)
| ByFields (name type : option string).

(** Is the field equal to the value asked for, if one is asked for? *)
Definition field_matches (asked : option string) (field : string) : bool :=
  match asked with
  | Some v => String.eqb v field
  | None => true
  end.

(** The predicate at one element of [array]. *)
Definition holds (p : predicate) (value : Descriptor) (index : nat)
    (array : list Descriptor) : bool :=
  match p with
  | ByFunction f => f value index array
  | ByFields n t =>
      field_matches n (name value) && field_matches t (type value)
  end.

(** [_.filter(array, predicate)], from [index] on. *)
Fixpoint lodash_filter_from (p : predicate) (array : list Descriptor)
    (index : nat) (rest : list Descriptor) : list Descriptor :=
  match rest with
  | [] => []
  | value :: rest' =>
      if holds p value index array
      then value :: lodash_filter_from p array (S index) rest'
      else lodash_filter_from p array (S index) rest'
  end.

(** [_.filter(this, predicate)] *)
Definition lodash_filter (p : predicate) (this : list Descriptor)
  : list Descriptor :=
  lodash_filter_from p this 0 this.

(** [filter (predicate)]: a new collection, bound to the same injector. *)
Definition filter (p : predicate) (this : list Descriptor)
  : list Descriptor :=
  constructor (FromArray (lodash_filter p this)).

End DependencyCollection.

(** ** Plugins and the store they live in *)

(** [plugin.metadata]: the version and the declared dependencies, from
    plugin name to version range; [dependencies] is [None] when the
    metadata declares none. *)
Module Metadata.

Record t : Type := {
  version : string;
  dependencies : option (JsObject.obj string)
}.

End Metadata.

(** A reference to a plugin object. *)
Definition loc : Type := nat.

(** Modelled from the spec: the [Plugin] entity ([Plugin.js] is not among
    the sources), with the fields the registry reads and writes.
    [dependencies] and [dependents] are [None] while the property is
    [undefined]. *)
Module Plugin.

Record t : Type := {
  name : string;
  metadata : Metadata.t;
  dependencies : option (JsObject.obj loc);
  dependents : option (JsObject.obj loc)
}.

(** [plugin.dependencies = d] *)
Definition with_dependencies (d : JsObject.obj loc) (p : t) : t :=
  {| name := name p; metadata := metadata p;
     dependencies := Some d; dependents := dependents p |}.

(** [plugin.dependents = d] *)
Definition with_dependents (d : JsObject.obj loc) (p : t) : t :=
  {| name := name p; metadata := metadata p;
     dependencies := dependencies p; dependents := Some d |}.

End Plugin.

(** The store: the object behind each reference, and the next unused
    reference. *)
Record heap : Type := {
  next : loc;
  cell : loc -> Plugin.t
}.

Definition store (h : heap) (l : loc) (p : Plugin.t) : heap :=
  {| next := next h;
     cell := fun l' => if Nat.eqb l' l then p else cell h l' |}.

Definition alloc (h : heap) (p : Plugin.t) : loc * heap :=
  (next h,
   {| next := S (next h);
      cell := fun l' => if Nat.eqb l' (next h) then p else cell h l' |}).

(** Modelled from the spec: the constructor of [Plugin] ([Plugin.js] is not
    among the sources).  A plugin is constructed from [(name, metadata)]
    with its links unset; a [metadata.version] that is not a valid semantic
    version is refused with InvalidVersionError. *)
Definition new_Plugin (valid : string -> bool)
    (name : string) (metadata : Metadata.t) (h : heap)
  : completion loc * heap :=
  if valid (Metadata.version metadata) then
    let (l, h') :=
      alloc h {| Plugin.name := name; Plugin.metadata := metadata;
                 Plugin.dependencies := None; Plugin.dependents := None |} in
    (Return l, h')
  else (Throw (mkError ("Invalid version " ++ Metadata.version metadata)), h).

(** ** Arrays traversed while they are spliced *)

(** [a.splice(index, 1)] *)
Fixpoint splice1 {A} (index : nat) (a : list A) : list A :=
  match index, a with
  | _, [] => []
  | 0, _ :: a' => a'
  | S i, x :: a' => x :: splice1 i a'
  end.

(** [source.forEach((plugin, index) => { if (test(plugin, target)) {
      target.push(plugin); source.splice(index, 1) } })].
    [forEach] reads the length once ([steps] counts the indices still to
    visit) and visits index after index of the array as it then is: an
    index beyond the present end is skipped, and after a splice the
    element that moved into the freed index is never visited. *)
Fixpoint forEach_move (test : loc -> list loc -> bool)
    (steps index : nat) (source target : list loc) : list loc * list loc :=
  match steps with
  | 0 => (source, target)
  | S steps' =>
      match nth_error source index with
      | None => forEach_move test steps' (S index) source target
      | Some plugin =>
          if test plugin target
          then forEach_move test steps' (S index)
                 (splice1 index source) (target ++ [plugin])
          else forEach_move test steps' (S index) source target
      end
  end.

(** [a.forEach(f)] for a callback that may throw and does not touch [a]. *)
Fixpoint forEach {A S} (f : A -> S -> completion unit * S)
    (a : list A) (s : S) : completion unit * S :=
  match a with
  | [] => (Return tt, s)
  | x :: a' =>
      match f x s with
      | (Return _, s') => forEach f a' s'
      | (Throw e, s') => (Throw e, s')
      end
  end.

(** [_.uniq] *)
Fixpoint uniq (l : list string) : list string :=
  match l with
  | [] => []
  | x :: l' => x :: filter (fun y => negb (String.eqb x y)) (uniq l')
  end.

(** ** Registry *)

Module Registry.

(** [this[plugins]], [this.prioritized] and [this.directories]. *)
Record t : Type := {
  plugins : JsObject.obj loc;
  prioritized : list loc;
  directories : list string
}.

(** What [set] may be handed: a [Plugin] instance, or anything else, given
    by its JSON text. *)
Inductive value : Type :=
| IsPlugin (plugin : loc)
| NotPlugin (json : string).

(** Modelled from the spec: [new PluginCollection(collection)]
    ([PluginCollection.js] is not among the sources).  The collection is
    structurally identical in contract to [DependencyCollection], whose
    constructor pushes every element in order. *)
Definition PluginCollection (collection : list loc) : list loc :=
  fold_left (fun this item => this ++ [item]) collection [].

(** [constructor (options)]; [default_directory] is
    [path.join(process.cwd(), 'plugins')]. *)
Definition constructor (default_directory : string)
    (options_directories : option (list string)) : t :=
  {| plugins := JsObject.empty;
     prioritized := PluginCollection [];
     directories := uniq match options_directories with
                         | Some d => d
                         | None => [default_directory]
                         end |}.

(** [get (name)]: the plugin stored under [name], [None] when none is (the
    code then returns [undefined], or what the map inherits under that
    name, see [JsObject.inherited]). *)
Definition get (name : string) (this : t) : option loc :=
  JsObject.get (plugins this) name.

(** [set (name, plugin)], for [name] other than [__proto__]. *)
Definition set (name : string) (plugin : value) (this : t)
  : completion loc * t :=
  match plugin with
  | NotPlugin json => (Throw (TypeMismatchError json), this)
  | IsPlugin p =>
      (Return p,
       {| plugins := JsObject.put (plugins this) name p;
          prioritized := prioritized this;
          directories := directories this |})
  end.

(** [del (name)] *)
Definition del (name : string) (this : t) : bool * t :=
  let (answer, plugins') := JsObject.delete (plugins this) name in
  (answer,
   {| plugins := plugins';
      prioritized := prioritized this;
      directories := directories this |}).

Section Collaborators.

(** [semver.satisfies(version, range)] *)
Variable satisfies : string -> string -> bool.

(** [new Plugin(name, metadata)] *)
Variable new_Plugin : string -> Metadata.t -> heap -> completion loc * heap.

(** The body of the inner loop of [resolve], for the plugin [plugin] and
    its declared dependency [name] with range [range]. *)
Definition resolve_entry (this : t) (plugin : loc)
    (entry : string * string) (h : heap) : completion unit * heap :=
  let (name, range) := entry in
  (* validate presence *)
  match JsObject.get (plugins this) name with
  | None =>
      if JsObject.inherited name
      then
        (* [dependency] is what the map inherits: it passes the test of
           presence and has no [metadata] *)
        (Throw (TypeError_of_undefined "version"), h)
      else (Throw (MissingDependencyError name), h)
  | Some dependency =>
      (* validate version *)
      let version := Metadata.version (Plugin.metadata (cell h dependency)) in
      if negb (satisfies version range)
      then (Throw (VersionMismatchError name version range), h)
      else
        (* link to dependents *)
        let dependent_table :=
          JsObject.put
            (JsObject.or_empty (Plugin.dependents (cell h dependency)))
            (Plugin.name (cell h plugin)) plugin in
        let h1 :=
          store h dependency
            (Plugin.with_dependents dependent_table (cell h dependency)) in
        (* link to dependencies *)
        let dependency_table :=
          JsObject.put
            (JsObject.or_empty (Plugin.dependencies (cell h1 plugin)))
            name dependency in
        (Return tt,
         store h1 plugin
           (Plugin.with_dependencies dependency_table (cell h1 plugin)))
  end.

(** The body of the outer loop of [resolve]. *)
Definition resolve_plugin (this : t) (registration : string * loc)
    (h : heap) : completion unit * heap :=
  let (key, plugin) := registration in
  let metadata := Plugin.metadata (cell h plugin) in
  let dependencies := JsObject.or_empty (Metadata.dependencies metadata) in
  forEach (resolve_entry this plugin) (JsObject.own_entries dependencies) h.

(** [resolve ()]: [Object.keys(...).forEach(key => ...)] visits each key
    with the value stored under it. *)
Definition resolve (this : t) (h : heap) : completion unit * heap :=
  forEach (resolve_plugin this) (JsObject.own_entries (plugins this)) h.

(** [dependencies.every(dependency => target.indexOf(dependency) !== -1)]
    with [dependencies = _.values(plugin.dependencies)]. *)
Definition isSatisfied (h : heap) (plugin : loc) (target : list loc) : bool :=
  forallb (fun dependency => existsb (Nat.eqb dependency) target)
    (JsObject.values_opt (Plugin.dependencies (cell h plugin))).

(** [satisfy (ordered, remaining)]; [depth] bounds the nesting of the
    recursive calls, [None] meaning it was exceeded. *)
Fixpoint satisfy (depth : nat) (h : heap) (ordered remaining : list loc)
  : option (list loc) :=
  match depth with
  | 0 => None
  | S depth' =>
      let (source, target) :=
        forEach_move (isSatisfied h) (List.length remaining) 0 remaining ordered in
      match source with
      | [] => Some target
      | _ :: _ => satisfy depth' h target source
      end
  end.

(** [!plugin.dependencies || Object.keys(plugin.dependencies).length === 0] *)
Definition hasNoDependencies (h : heap) (plugin : loc) : bool :=
  match Plugin.dependencies (cell h plugin) with
  | None => true
  | Some d => Nat.eqb (List.length (JsObject.keys d)) 0
  end.

(** [prioritize ()] *)
Definition prioritize (depth : nat) (this : t) (h : heap) : option t :=
  let values := JsObject.values (plugins this) in
  (* separate the plugins that have no dependencies *)
  let (remaining, ordered) :=
    forEach_move (fun plugin _ => hasNoDependencies h plugin)
      (List.length values) 0 values [] in
  (* recurse through the remaining dependencies *)
  match satisfy depth h ordered remaining with
  | Some result =>
      Some {| plugins := plugins this;
              prioritized := PluginCollection result;
              directories := directories this |}
  | None => None
  end.

(** [plugin (name, metadata)]; [metadata] is [None] when the argument is
    missing. *)
Definition plugin (name : string) (metadata : option Metadata.t)
    (this : t) (h : heap) : completion (option loc) * t * heap :=
  match metadata with
  | Some md =>
      match new_Plugin name md h with
      | (Throw e, h') => (Throw e, this, h')
      | (Return p, h') =>
          match set name (IsPlugin p) this with
          | (Return p', this') => (Return (Some p'), this', h')
          | (Throw e, this') => (Throw e, this', h')
          end
      end
  | None => (Return (get name this), this, h)
  end.

End Collaborators.

Section Initializers.

(** [plugin.initialize()], a method of [Plugin]: it may throw, and acts on
    whatever the initializers act on. *)
Variable World : Type.
Variable plugin_initialize : loc -> World -> completion unit * World.

(** [initialize ()] *)
Definition initialize (this : t) (w : World) : completion unit * World :=
  forEach plugin_initialize (prioritized this) w.

End Initializers.

End Registry.

(** ** Vocabulary of the properties *)

(** [q] is one of the values of [p.dependencies]. *)
Definition depends_on (h : heap) (p q : loc) : Prop :=
  In q (JsObject.values_opt (Plugin.dependencies (cell h p))).

(** [p] is stored in the registry map. *)
Definition registered (this : Registry.t) (p : loc) : Prop :=
  In p (JsObject.values (Registry.plugins this)).

(** Every link of a registered plugin leads to a registered plugin. *)
Definition links_closed (this : Registry.t) (h : heap) : Prop :=
  forall p q, registered this p -> depends_on h p q -> registered this q.

(** No registered plugin reaches itself along dependency links. *)
Definition acyclic (this : Registry.t) (h : heap) : Prop :=
  forall p, registered this p -> ~ clos_trans loc (depends_on h) p p.

(** In [order], every dependency of a plugin stands at a smaller index
    than the plugin. *)
Definition dependencies_first (h : heap) (order : list loc) : Prop :=
  forall i p, nth_error order i = Some p ->
  forall q, depends_on h p q ->
  exists j, j < i /\ nth_error order j = Some q.

(** The declared dependencies of a plugin: [metadata.dependencies || {}]. *)
Definition declared (h : heap) (p : loc) : JsObject.obj string :=
  JsObject.or_empty (Metadata.dependencies (Plugin.metadata (cell h p))).

(** [o[k]] where [o] may be [undefined]. *)
Definition lookup {V} (o : option (JsObject.obj V)) (k : string) : option V :=
  JsObject.get (JsObject.or_empty o) k.

(** [h'] holds the same plugins as [h], under the same names and with the
    same metadata. *)
Definition same_plugins (h h' : heap) : Prop :=
  forall p, Plugin.name (cell h' p) = Plugin.name (cell h p) /\
            Plugin.metadata (cell h' p) = Plugin.metadata (cell h p).

(** A chain of dependency links. *)
Fixpoint chain (h : heap) (l : list loc) : Prop :=
  match l with
  | p :: ((q :: _) as l') => depends_on h p q /\ chain h l'
  | _ => True
  end.

(** The elements at the even positions 0, 2, 4, ... of a list. *)
Fixpoint evens {A} (l : list A) : list A :=
  match l with
  | [] => []
  | x :: l' =>
      x :: match l' with
           | [] => []
           | _ :: l'' => evens l''
           end
  end.

(** The elements at the odd positions 1, 3, 5, ... *)
Definition odds {A} (l : list A) : list A := evens (tl l).

(** The even positions first, then the rest rearranged likewise; [rounds]
    bounds the number of rounds. *)
Fixpoint rearrange {A} (rounds : nat) (l : list A) : list A :=
  match rounds with
  | 0 => []
  | S rounds' =>
      match l with
      | [] => []
      | _ :: _ => evens l ++ rearrange rounds' (odds l)
      end
  end.

(** An initializer that also records, in order, the plugins it is called
    on. *)
Definition logged {World} (f : loc -> World -> completion unit * World)
    (p : loc) (w : list loc * World) : completion unit * (list loc * World) :=
  let (c, w') := f p (snd w) in (c, (fst w ++ [p], w')).

(** The entry of a plugin for [entry] can be linked: the name is
    registered, at a version in the range. *)
Definition linkable (satisfies : string -> string -> bool)
    (this : Registry.t) (h : heap) (entry : string * string) : Prop :=
  exists B,
    Registry.get (fst entry) this = Some B /\
    satisfies (Metadata.version (Plugin.metadata (cell h B))) (snd entry)
    = true.

(** [l] is [l'] with some elements left out, the others in the order
    they have in [l']. *)
Inductive subsequence {A} : list A -> list A -> Prop :=
| subsequence_nil : subsequence [] []
| subsequence_keep x l l' : subsequence l l' -> subsequence (x :: l) (x :: l')
| subsequence_skip x l l' : subsequence l l' -> subsequence l (x :: l').

(** A predicate that looks at the value only, not at its index or at the
    array. *)
Definition by_value (p : DependencyCollection.predicate) : Prop :=
  forall value index array index' array',
    DependencyCollection.holds p value index array =
    DependencyCollection.holds p value index' array'.

(** What [satisfy] has placed stands after [ordered], each plugin after
    its dependencies. *)
Definition placed_after (h : heap) (ordered result : list loc) : Prop :=
  exists rest,
    result = ordered ++ rest /\
    forall i p, nth_error result i = Some p -> List.length ordered <= i ->
    forall q, depends_on h p q ->
    exists j, j < i /\ nth_error result j = Some q.

(** The calls of [f] on the plugins of [l], in order and starting in [w],
    all return, and leave [w']. *)
Inductive all_return {World} (f : loc -> World -> completion unit * World)
  : list loc -> World -> World -> Prop :=
| all_return_nil w : all_return f [] w w
| all_return_cons p l w w1 w' :
    f p w = (Return tt, w1) ->
    all_return f l w1 w' ->
    all_return f (p :: l) w w'.

(** ** Sample registries *)

Module Samples.

(** A stand-in for [semver.satisfies] on the few pairs the samples use. *)
Definition satisfies (version range : string) : bool :=
  String.eqb range "*"
  || String.eqb version range
  || (String.eqb version "1.0.0" && String.eqb range "^1.0.0").

Definition blank : Plugin.t :=
  {| Plugin.name := EmptyString;
     Plugin.metadata := {| Metadata.version := EmptyString;
                           Metadata.dependencies := None |};
     Plugin.dependencies := None;
     Plugin.dependents := None |}.

Definition no_plugins : heap := {| next := 0; cell := fun _ => blank |}.

Definition metadata (version : string) (deps : list (string * string))
  : Metadata.t :=
  {| Metadata.version := version;
     Metadata.dependencies :=
       match deps with
       | [] => None
       | _ => Some (fold_left (fun o e => JsObject.put o (fst e) (snd e))
                      deps JsObject.empty)
       end |}.

Definition new_Plugin := new_Plugin (fun _ => true).

Definition fresh : Registry.t := Registry.constructor "/srv/plugins" None.

(** [registry.plugin(name, metadata)] for each registration in turn. *)
Fixpoint register (l : list (string * Metadata.t))
    (this : Registry.t) (h : heap) : Registry.t * heap :=
  match l with
  | [] => (this, h)
  | (name, md) :: l' =>
      let '(_, this', h') :=
        Registry.plugin new_Plugin name (Some md) this h in
      register l' this' h'
  end.

(** The heap [resolve()] leaves. *)
Definition resolved (s : Registry.t * heap) : Registry.t * heap :=
  (fst s, snd (Registry.resolve satisfies (fst s) (snd s))).

(** a, b and c, none with dependencies. *)
Definition independent : Registry.t * heap :=
  register [("a", metadata "1.0.0" []);
            ("b", metadata "1.0.0" []);
            ("c", metadata "1.0.0" [])] fresh no_plugins.

(** c needs b, b needs a; registered in that order. *)
Definition chain : Registry.t * heap :=
  register [("c", metadata "1.0.0" [("b", "^1.0.0")]);
            ("b", metadata "1.0.0" [("a", "^1.0.0")]);
            ("a", metadata "1.0.0" [])] fresh no_plugins.

(** a needs b and b needs a. *)
Definition cycle : Registry.t * heap :=
  register [("a", metadata "1.0.0" [("b", "^1.0.0")]);
            ("b", metadata "1.0.0" [("a", "^1.0.0")])] fresh no_plugins.

(** alpha needs ghost, which nobody registered. *)
Definition ghost : Registry.t * heap :=
  register [("alpha", metadata "1.0.0" [("ghost", "*")])] fresh no_plugins.

(** a needs ghost (unregistered) and then b in a range b does not meet. *)
Definition ghost_then_mismatch : Registry.t * heap :=
  register [("a", metadata "1.0.0" [("ghost", "*"); ("b", "^2.0.0")]);
            ("b", metadata "1.0.0" [])] fresh no_plugins.

(** a needs b in a range b does not meet. *)
Definition mismatch : Registry.t * heap :=
  register [("a", metadata "1.0.0" [("b", "^2.0.0")]);
            ("b", metadata "1.0.0" [])] fresh no_plugins.

(** a needs b in a range b meets. *)
Definition pair : Registry.t * heap :=
  register [("a", metadata "1.0.0" [("b", "^1.0.0")]);
            ("b", metadata "1.0.0" [])] fresh no_plugins.

(** a alone, stored a second time under the name b. *)
Definition shared : Registry.t * heap :=
  let (this, h) := register [("a", metadata "1.0.0" [])] fresh no_plugins in
  (snd (Registry.set "b" (Registry.IsPlugin 0) this), h).

(** alpha needs constructor, which nobody registered and every object
    inherits. *)
Definition inherited_dependency : Registry.t * heap :=
  register [("alpha", metadata "1.0.0" [("constructor", "*")])]
    fresh no_plugins.

(** An injector with two descriptors: [get] counts its calls and throws
    on any other name. *)
Definition injector_get (name : string) (calls : nat)
  : completion string * nat :=
  if String.eqb name "a" then (Return "instance of a", S calls)
  else if String.eqb name "b" then (Return "instance of b", S calls)
  else (Throw (mkError ("Unknown dependency " ++ name)), calls).

Definition descriptor (name : string) : DependencyCollection.Descriptor :=
  {| DependencyCollection.name := name;
     DependencyCollection.type := "factory" |}.

End Samples.

(** ** Facts about property tables *)

Section TableFacts.
Context {V : Type}.
Implicit Types (o : JsObject.obj V) (k : string) (v : V).

Lemma get_put_same o k v : JsObject.get (JsObject.put o k v) k = Some v.
Proof.
  induction o as [|[k' v'] o IH]; simpl.
  - now rewrite String.eqb_refl.
  - destruct (String.eqb k k') eqn:E; simpl; rewrite ?String.eqb_refl, ?E; auto.
Qed.

Lemma get_put_other o k k' v :
  k' <> k -> JsObject.get (JsObject.put o k v) k' = JsObject.get o k'.
Proof.
  intros Hne. induction o as [|[k0 v0] o IH]; simpl.
  - destruct (String.eqb k' k) eqn:E; auto.
    apply String.eqb_eq in E. contradiction.
  - destruct (String.eqb k k0) eqn:E; simpl.
    + apply String.eqb_eq in E. subst k0.
      destruct (String.eqb k' k) eqn:E'; auto.
      apply String.eqb_eq in E'. contradiction.
    + now rewrite IH.
Qed.

Lemma get_In o k v : JsObject.get o k = Some v -> In (k, v) o.
Proof.
  induction o as [|[k' v'] o IH]; simpl; [discriminate|].
  destruct (String.eqb k k') eqn:E.
  - apply String.eqb_eq in E. intros [= ->]. subst. now left.
  - auto.
Qed.

Lemma put_In o k v e :
  In e (JsObject.put o k v) -> e = (k, v) \/ In e o.
Proof.
  induction o as [|[k' v'] o IH]; simpl.
  - intros [<-|[]]. now left.
  - destruct (String.eqb k k'); simpl.
    + intros [<-|H]; auto.
    + intros [<-|H]; auto. destruct (IH H); auto.
Qed.

Lemma put_keys_existing o k v v0 :
  JsObject.get o k = Some v0 ->
  map fst (JsObject.put o k v) = map fst o.
Proof.
  induction o as [|[k' v'] o IH]; simpl; [discriminate|].
  destruct (String.eqb k k') eqn:E; simpl.
  - apply String.eqb_eq in E. now subst.
  - intros H. now rewrite IH.
Qed.

Lemma delete_absent o k :
  JsObject.get o k = None -> snd (JsObject.delete o k) = o.
Proof.
  unfold JsObject.delete. simpl.
  induction o as [|[k' v'] o IH]; simpl; auto.
  destruct (String.eqb k k') eqn:E; [discriminate|].
  simpl. intros H. now rewrite IH.
Qed.

Lemma insert_by_index_In n e (l : list (N * (string * V))) x :
  In x (JsObject.insert_by_index n e l) <-> x = (n, e) \/ In x l.
Proof.
  induction l as [|[m e'] l IH]; simpl.
  - intuition.
  - destruct (n <? m)%N; simpl; rewrite ?IH; intuition.
Qed.

Lemma index_entries_In o e :
  In e (map snd (JsObject.index_entries o)) <->
  In e o /\ JsObject.array_index (fst e) <> None.
Proof.
  induction o as [|e0 o IH]; simpl.
  - tauto.
  - destruct (JsObject.array_index (fst e0)) as [n|] eqn:E.
    + rewrite in_map_iff. split.
      * intros [[m x] [Hx Hin]]. simpl in Hx. subst x.
        apply insert_by_index_In in Hin. destruct Hin as [[= -> ->]|Hin].
        -- split; [now left|congruence].
        -- assert (H : In e (map snd (JsObject.index_entries o)))
             by (apply in_map_iff; exists (m, e); auto).
           apply IH in H. tauto.
      * intros [[Heq|Hin] Hidx].
        -- exists (n, e0). split; auto. apply insert_by_index_In. now left.
        -- assert (H : In e (map snd (JsObject.index_entries o)))
             by (apply IH; auto).
           apply in_map_iff in H. destruct H as [[m x] [Hx H]].
           simpl in Hx. subst x.
           exists (m, e). split; auto. apply insert_by_index_In. now right.
    + rewrite IH. split.
      * tauto.
      * intros [[Heq|Hin] Hidx]; [subst; congruence|tauto].
Qed.

Lemma own_entries_In o e : In e (JsObject.own_entries o) <-> In e o.
Proof.
  unfold JsObject.own_entries, JsObject.named_entries.
  rewrite in_app_iff, index_entries_In, filter_In.
  destruct (JsObject.array_index (fst e)); intuition congruence.
Qed.

Lemma values_In o v :
  In v (JsObject.values o) <-> exists k, In (k, v) o.
Proof.
  unfold JsObject.values. rewrite in_map_iff. split.
  - intros [[k v'] [Hv Hin]]. simpl in Hv. subst v'.
    exists k. now apply own_entries_In.
  - intros [k Hin]. exists (k, v). split; auto. now apply own_entries_In.
Qed.

Lemma get_values o k v : JsObject.get o k = Some v -> In v (JsObject.values o).
Proof. intros H. apply values_In. exists k. now apply get_In. Qed.

Lemma insert_by_index_keys n e e' (l l' : list (N * (string * V))) :
  fst e = fst e' ->
  map (fun x => (fst x, fst (snd x))) l = map (fun x => (fst x, fst (snd x))) l' ->
  map (fun x => (fst x, fst (snd x))) (JsObject.insert_by_index n e l) =
  map (fun x => (fst x, fst (snd x))) (JsObject.insert_by_index n e' l').
Proof.
  intros He. revert l'.
  induction l as [|[m x] l IH]; intros [|[m' x'] l']; simpl;
    try discriminate.
  - intros _. now rewrite He.
  - intros [= -> Hx Hl].
    destruct (n <? m')%N; simpl.
    + now rewrite He, Hx, Hl.
    + rewrite Hx. f_equal. now apply IH.
Qed.

Lemma keys_determined o o' :
  map fst o = map fst o' -> JsObject.keys o = JsObject.keys o'.
Proof.
  intros H.
  assert (Hi : map (fun x => (fst x, fst (snd x))) (JsObject.index_entries o) =
               map (fun x => (fst x, fst (snd x))) (JsObject.index_entries o')).
  { revert o' H. induction o as [|e o IH]; intros [|e' o']; simpl;
      try discriminate; auto.
    intros [= He Ho]. rewrite <- He.
    destruct (JsObject.array_index (fst e)); auto.
    apply insert_by_index_keys; auto. }
  assert (Hn : map fst (JsObject.named_entries o) =
               map fst (JsObject.named_entries o')).
  { unfold JsObject.named_entries. clear Hi.
    revert o' H. induction o as [|e o IH]; intros [|e' o']; simpl;
      try discriminate; auto.
    intros [= He Ho]. rewrite <- He.
    destruct (JsObject.array_index (fst e)); simpl; auto.
    rewrite He. f_equal. auto. }
  unfold JsObject.keys, JsObject.own_entries.
  rewrite !map_app, !map_map. simpl. rewrite Hn. f_equal.
  apply (f_equal (map snd)) in Hi. rewrite !map_map in Hi. exact Hi.
Qed.

End TableFacts.

(** ** Facts about the traversals *)

Lemma push_all {A} (l acc : list A) :
  fold_left (fun this item => this ++ [item]) l acc = acc ++ l.
Proof.
  revert acc. induction l as [|x l IH]; intros acc; simpl.
  - now rewrite app_nil_r.
  - rewrite IH, <- app_assoc. reflexivity.
Qed.

Lemma PluginCollection_id (l : list loc) : Registry.PluginCollection l = l.
Proof. unfold Registry.PluginCollection. now rewrite push_all. Qed.

Lemma splice1_length {A} (a : list A) i x :
  nth_error a i = Some x -> S (List.length (splice1 i a)) = List.length a.
Proof.
  revert i. induction a as [|y a IH]; intros [|i]; simpl; try discriminate.
  - reflexivity.
  - intros H. now rewrite (IH _ H).
Qed.

Lemma splice1_Permutation {A} (a : list A) i x :
  nth_error a i = Some x -> Permutation (x :: splice1 i a) a.
Proof.
  revert i. induction a as [|y a IH]; intros [|i]; simpl; try discriminate.
  - intros [= ->]. reflexivity.
  - intros H. rewrite perm_swap. constructor. now apply IH.
Qed.

Section MovePass.
Variable test : loc -> list loc -> bool.

(** Nothing is lost or duplicated by a pass. *)
Lemma forEach_move_Permutation steps index source target source' target' :
  forEach_move test steps index source target = (source', target') ->
  Permutation (target' ++ source') (target ++ source).
Proof.
  revert index source target.
  induction steps as [|steps IH]; intros index source target; simpl.
  - intros [= <- <-]. reflexivity.
  - destruct (nth_error source index) as [plugin|] eqn:Hnth; [|apply IH].
    destruct (test plugin target); [|apply IH].
    intros H. apply IH in H. rewrite H, <- app_assoc. simpl.
    apply Permutation_app_head. now apply splice1_Permutation.
Qed.

(** A pass never lengthens the array it traverses. *)
Lemma forEach_move_length steps index source target source' target' :
  forEach_move test steps index source target = (source', target') ->
  List.length source' <= List.length source.
Proof.
  revert index source target.
  induction steps as [|steps IH]; intros index source target; simpl.
  - intros [= <- <-]. lia.
  - destruct (nth_error source index) as [plugin|] eqn:Hnth; [|apply IH].
    destruct (test plugin target); [|apply IH].
    intros H. apply IH in H. apply splice1_length in Hnth. lia.
Qed.

(** A pass that still has an element passing the test ahead of it moves
    at least one element. *)
Lemma forEach_move_progress steps index source target source' target' i p :
  forEach_move test steps index source target = (source', target') ->
  index <= i < index + steps ->
  nth_error source i = Some p ->
  test p target = true ->
  List.length source' < List.length source.
Proof.
  revert index source target.
  induction steps as [|steps IH]; intros index source target; simpl.
  - lia.
  - intros H Hi Hp Ht.
    destruct (nth_error source index) as [plugin|] eqn:Hnth.
    + destruct (test plugin target) eqn:Htest.
      * apply forEach_move_length in H. apply splice1_length in Hnth. lia.
      * apply (IH (S index) source target); auto.
        assert (i <> index) by (intros ->; congruence). lia.
    + apply nth_error_None in Hnth.
      assert (i < List.length source)
        by (apply nth_error_Some; congruence).
      lia.
Qed.

(** What holds of the target, and is kept by pushing an element that
    passes the test, holds after the pass. *)
Lemma forEach_move_invariant (Inv : list loc -> Prop)
    steps index source target source' target' :
  (forall p t, Inv t -> test p t = true -> Inv (t ++ [p])) ->
  forEach_move test steps index source target = (source', target') ->
  Inv target -> Inv target'.
Proof.
  intros Hkeep. revert index source target.
  induction steps as [|steps IH]; intros index source target; simpl.
  - now intros [= <- <-].
  - destruct (nth_error source index) as [plugin|] eqn:Hnth; [|apply IH].
    destruct (test plugin target) eqn:Htest; [|apply IH].
    intros H Hinv. apply IH in H; auto.
Qed.

End MovePass.

(** ** Facts about [satisfy] and [prioritize] *)

Lemma isSatisfied_true h p target :
  Registry.isSatisfied h p target = true <->
  (forall q, depends_on h p q -> In q target).
Proof.
  unfold Registry.isSatisfied, depends_on. rewrite forallb_forall.
  split; intros H q Hq.
  - apply H in Hq. apply existsb_exists in Hq.
    destruct Hq as [x [Hx Heq]]. apply Nat.eqb_eq in Heq. now subst.
  - apply existsb_exists. exists q. split; auto. apply Nat.eqb_refl.
Qed.

Lemma isSatisfied_false h p target :
  Registry.isSatisfied h p target = false ->
  exists q, depends_on h p q /\ ~ In q target.
Proof.
  unfold Registry.isSatisfied, depends_on.
  induction (JsObject.values_opt (Plugin.dependencies (cell h p)))
    as [|d l IH]; simpl; [discriminate|].
  destruct (existsb (Nat.eqb d) target) eqn:E; simpl.
  - intros H. destruct (IH H) as [q [Hq Hn]]. eauto.
  - intros _. exists d. split; auto. intros Hin.
    assert (existsb (Nat.eqb d) target = true)
      by (apply existsb_exists; exists d; split; auto; apply Nat.eqb_refl).
    congruence.
Qed.

Lemma hasNoDependencies_true h p q :
  Registry.hasNoDependencies h p = true -> ~ depends_on h p q.
Proof.
  unfold Registry.hasNoDependencies, depends_on.
  destruct (Plugin.dependencies (cell h p)) as [d|]; simpl; auto.
  unfold JsObject.keys, JsObject.values. rewrite length_map.
  destruct (JsObject.own_entries d); simpl; [auto|discriminate].
Qed.

Lemma dependencies_first_push h order p :
  dependencies_first h order ->
  (forall q, depends_on h p q -> In q order) ->
  dependencies_first h (order ++ [p]).
Proof.
  intros Hord Hp i x Hi q Hq.
  destruct (Nat.lt_ge_cases i (List.length order)) as [Hlt|Hge].
  - rewrite nth_error_app1 in Hi by assumption.
    destruct (Hord i x Hi q Hq) as [j [Hj Hnth]].
    exists j. split; auto. rewrite nth_error_app1 by lia. assumption.
  - rewrite nth_error_app2 in Hi by assumption.
    destruct (i - List.length order) as [|k] eqn:Hk; simpl in Hi.
    + injection Hi as <-.
      destruct (In_nth_error _ _ (Hp q Hq)) as [j Hj].
      assert (j < List.length order) by (apply nth_error_Some; congruence).
      exists j. split; [lia|]. rewrite nth_error_app1 by lia. assumption.
    + destruct k; discriminate.
Qed.

Lemma chain_suffix h l1 l2 : chain h (l1 ++ l2) -> chain h l2.
Proof.
  induction l1 as [|x l1 IH]; simpl; auto.
  destruct (l1 ++ l2) eqn:E; [|intros [_ H]; auto].
  destruct l1; simpl in E; [subst; simpl; auto|discriminate].
Qed.

Lemma chain_reaches h a l2 b l3 :
  chain h (a :: l2 ++ b :: l3) -> clos_trans loc (depends_on h) a b.
Proof.
  revert a. induction l2 as [|c l2 IH]; intros a.
  - simpl. intros [H _]. now apply t_step.
  - intros [H Hc]. apply t_trans with c; [now apply t_step|].
    apply IH. exact Hc.
Qed.

(** Among plugins none of which is ready, a chain of any length can be
    followed without leaving them. *)
Lemma blocked_chain h source target n :
  (forall p, In p source -> Registry.isSatisfied h p target = false) ->
  (forall p q, In p source -> depends_on h p q -> In q (target ++ source)) ->
  forall p, In p source ->
  exists l, List.length l = n /\ chain h (p :: l) /\ incl (p :: l) source.
Proof.
  intros Hblocked Hclosed.
  induction n as [|n IH]; intros p Hp.
  - exists []. repeat split; simpl; auto. intros x [<-|[]]. assumption.
  - destruct (isSatisfied_false _ _ _ (Hblocked p Hp)) as [q [Hq Hnot]].
    assert (Hqs : In q source).
    { specialize (Hclosed p q Hp Hq). apply in_app_iff in Hclosed. tauto. }
    destruct (IH q Hqs) as [l [Hlen [Hchain Hincl]]].
    exists (q :: l). repeat split; simpl; auto.
    intros x [<-|Hx]; auto.
Qed.

(** Without a cycle, some plugin still to be placed has all its
    dependencies placed. *)
Lemma some_plugin_ready h source target :
  source <> [] ->
  (forall p q, In p source -> depends_on h p q -> In q (target ++ source)) ->
  (forall p, In p source -> ~ clos_trans loc (depends_on h) p p) ->
  exists p, In p source /\ Registry.isSatisfied h p target = true.
Proof.
  intros Hne Hclosed Hacyclic.
  destruct (existsb (fun p => Registry.isSatisfied h p target) source) eqn:E.
  - apply existsb_exists in E. exact E.
  - exfalso.
    assert (Hblocked : forall p, In p source ->
                       Registry.isSatisfied h p target = false).
    { intros p Hp.
      destruct (Registry.isSatisfied h p target) eqn:Hs; auto.
      assert (existsb (fun p => Registry.isSatisfied h p target) source = true)
        by (apply existsb_exists; eauto).
      congruence. }
    destruct source as [|p0 source0] eqn:Hsrc; [congruence|].
    rewrite <- Hsrc in *.
    assert (Hp0 : In p0 source) by (rewrite Hsrc; now left).
    destruct (blocked_chain h source target (List.length source)
                Hblocked Hclosed p0 Hp0) as [l [Hlen [Hchain Hincl]]].
    assert (Hdup : ~ NoDup (p0 :: l)).
    { intros Hnd. apply NoDup_incl_length with (l' := source) in Hnd; auto.
      simpl in Hnd. lia. }
    apply (not_NoDup Nat.eq_decidable) in Hdup.
    destruct Hdup as [a [l1 [l2 [l3 Heq]]]].
    rewrite Heq in Hchain, Hincl.
    apply chain_suffix in Hchain. apply chain_reaches in Hchain.
    apply (Hacyclic a); auto.
    apply Hincl. apply in_app_iff. right. now left.
Qed.

(** [satisfy] returns once its depth exceeds the number of plugins left,
    provided their links stay among the plugins at hand and form no cycle;
    what it returns lists [ordered] and [remaining], dependencies first. *)
Lemma satisfy_returns h depth ordered remaining :
  (forall p q, In p (ordered ++ remaining) -> depends_on h p q ->
               In q (ordered ++ remaining)) ->
  (forall p, In p (ordered ++ remaining) ->
             ~ clos_trans loc (depends_on h) p p) ->
  dependencies_first h ordered ->
  List.length remaining < depth ->
  exists result,
    Registry.satisfy depth h ordered remaining = Some result /\
    dependencies_first h result /\
    Permutation result (ordered ++ remaining).
Proof.
  revert ordered remaining.
  induction depth as [|depth IH]; intros ordered remaining
    Hclosed Hacyclic Hfirst Hdepth; [lia|].
  simpl.
  destruct (forEach_move (Registry.isSatisfied h) (List.length remaining) 0
              remaining ordered) as [source target] eqn:Hpass.
  pose proof (forEach_move_Permutation _ _ _ _ _ _ _ Hpass) as Hperm.
  assert (Hfirst' : dependencies_first h target).
  { apply (forEach_move_invariant _ (dependencies_first h) _ _ _ _ _ _
             (fun p t Ht Hs => dependencies_first_push h t p Ht
                                 (proj1 (isSatisfied_true h p t) Hs))
             Hpass Hfirst). }
  destruct source as [|s source].
  - exists target. rewrite app_nil_r in Hperm. auto.
  - assert (Hin : forall x, In x (target ++ s :: source) <->
                            In x (ordered ++ remaining)).
    { intros x. split; apply Permutation_in;
        [exact Hperm | symmetry; exact Hperm]. }
    assert (Hless : List.length (s :: source) < List.length remaining).
    { assert (Hne : remaining <> [])
        by (intros ->; simpl in Hpass; discriminate).
      destruct (some_plugin_ready h remaining ordered) as [p [Hp Hs]]; auto.
      - intros p q Hp Hq. apply (Hclosed p); auto.
        apply in_app_iff. now right.
      - intros p Hp. apply Hacyclic. apply in_app_iff. now right.
      - destruct (In_nth_error _ _ Hp) as [i Hi].
        apply (forEach_move_progress _ _ _ _ _ _ _ i p Hpass); auto.
        assert (i < List.length remaining)
          by (apply nth_error_Some; congruence).
        lia. }
    destruct (IH target (s :: source)) as [result [Hres [Hord Hp]]]; auto.
    + intros p q Hp Hq. apply Hin. apply (Hclosed p); auto. now apply Hin.
    + intros p Hp. apply Hacyclic. now apply Hin.
    + lia.
    + exists result. repeat split; auto. now rewrite Hp.
Qed.

(** Whatever [satisfy] returns is a rearrangement of its two arguments. *)
Lemma satisfy_Permutation h depth ordered remaining result :
  Registry.satisfy depth h ordered remaining = Some result ->
  Permutation result (ordered ++ remaining).
Proof.
  revert ordered remaining.
  induction depth as [|depth IH]; intros ordered remaining; simpl;
    [discriminate|].
  destruct (forEach_move (Registry.isSatisfied h) (List.length remaining) 0
              remaining ordered) as [source target] eqn:Hpass.
  apply forEach_move_Permutation in Hpass.
  destruct source as [|s source].
  - intros [= <-]. now rewrite app_nil_r in Hpass.
  - intros H. apply IH in H. now rewrite H.
Qed.

(** ** Facts about [forEach] *)

Section ForEachFacts.
Context {A S : Type}.
Variable f : A -> S -> completion unit * S.

Lemma forEach_app l1 l2 s :
  forEach f (l1 ++ l2) s =
  match forEach f l1 s with
  | (Return _, s1) => forEach f l2 s1
  | (Throw e, s1) => (Throw e, s1)
  end.
Proof.
  revert s. induction l1 as [|x l1 IH]; intros s; simpl; auto.
  destruct (f x s) as [[u|e] s1]; auto.
Qed.

(** The loop stops at the first element whose callback throws. *)
Lemma forEach_first_throw before x after s s1 e s2 :
  forEach f before s = (Return tt, s1) ->
  f x s1 = (Throw e, s2) ->
  forEach f (before ++ x :: after) s = (Throw e, s2).
Proof.
  intros Hb Hx. rewrite forEach_app, Hb. simpl. now rewrite Hx.
Qed.

Lemma forEach_invariant (I : S -> Prop) l :
  (forall x s c s', In x l -> I s -> f x s = (c, s') -> I s') ->
  forall s c s', I s -> forEach f l s = (c, s') -> I s'.
Proof.
  induction l as [|x l IH]; intros Hkeep s c s' Hs; simpl.
  - now intros [= <- <-].
  - destruct (f x s) as [[u|e] s1] eqn:Hx.
    + apply IH.
      * intros y t c' t' Hy. apply Hkeep. now right.
      * apply (Hkeep x s _ _ (or_introl eq_refl) Hs Hx).
    + intros [= <- <-]. apply (Hkeep x s _ _ (or_introl eq_refl) Hs Hx).
Qed.

(** A loop over a list holding an element that throws wherever it is
    reached does not return. *)
Lemma forEach_must_throw (I : S -> Prop) l x :
  In x l ->
  (forall y s c s', In y l -> I s -> f y s = (c, s') -> I s') ->
  (forall s, I s -> exists e s', f x s = (Throw e, s')) ->
  forall s, I s -> exists e s', forEach f l s = (Throw e, s').
Proof.
  induction l as [|y l IH]; intros Hin Hkeep Hthrow s Hs; [destruct Hin|].
  simpl. destruct (f y s) as [[u|e] s1] eqn:Hy; [|eauto].
  destruct Hin as [->|Hin].
  - destruct (Hthrow s Hs) as [e [s' He]]. congruence.
  - apply IH; auto.
    + intros z t c t' Hz. apply Hkeep. now right.
    + apply (Hkeep y s _ _ (or_introl eq_refl) Hs Hy).
Qed.

(** What every returning callback keeps is kept by a returning loop. *)
Lemma forEach_preserves (I Q : S -> Prop) l :
  (forall y s c s', In y l -> I s -> f y s = (c, s') -> I s') ->
  (forall y s s', In y l -> I s -> Q s -> f y s = (Return tt, s') -> Q s') ->
  forall s s', I s -> Q s -> forEach f l s = (Return tt, s') -> Q s'.
Proof.
  induction l as [|y l IH]; intros Hkeep HQ s s' Hs Hq; simpl.
  - now intros [= <-].
  - destruct (f y s) as [[[]|e] s1] eqn:Hy; [|discriminate].
    apply IH.
    + intros z t c t' Hz. apply Hkeep. now right.
    + intros z t t' Hz. apply HQ. now right.
    + apply (Hkeep y s _ _ (or_introl eq_refl) Hs Hy).
    + apply (HQ y s _ (or_introl eq_refl) Hs Hq Hy).
Qed.

(** What one callback establishes and the others keep holds after a
    returning loop. *)
Lemma forEach_reaches (I Q : S -> Prop) l x :
  In x l ->
  (forall y s c s', In y l -> I s -> f y s = (c, s') -> I s') ->
  (forall y s s', In y l -> I s -> Q s -> f y s = (Return tt, s') -> Q s') ->
  (forall s s', I s -> f x s = (Return tt, s') -> Q s') ->
  forall s s', I s -> forEach f l s = (Return tt, s') -> Q s'.
Proof.
  induction l as [|y l IH]; intros Hin Hkeep HQ Hx s s' Hs; [destruct Hin|].
  simpl. destruct (f y s) as [[[]|e] s1] eqn:Hy; [|discriminate].
  assert (Hs1 : I s1) by apply (Hkeep y s _ _ (or_introl eq_refl) Hs Hy).
  assert (Hkeep' : forall z t c t', In z l -> I t -> f z t = (c, t') -> I t')
    by (intros z t c t' Hz; apply Hkeep; now right).
  assert (HQ' : forall z t t', In z l -> I t -> Q t ->
                               f z t = (Return tt, t') -> Q t')
    by (intros z t t' Hz; apply HQ; now right).
  destruct Hin as [->|Hin].
  - apply (forEach_preserves I Q l Hkeep' HQ' s1 s' Hs1).
    apply (Hx s s1 Hs Hy).
  - apply IH; auto.
Qed.

End ForEachFacts.

(** ** Facts about [resolve] *)

Lemma same_plugins_refl h : same_plugins h h.
Proof. intros p. auto. Qed.

Lemma same_plugins_declared h h' p :
  same_plugins h h' -> declared h' p = declared h p.
Proof. intros H. unfold declared. now rewrite (proj2 (H p)). Qed.

Section ResolveFacts.
Variable satisfies : string -> string -> bool.
Variable this : Registry.t.

Lemma resolve_entry_throws P entry h e h' :
  Registry.resolve_entry satisfies this P entry h = (Throw e, h') -> h' = h.
Proof.
  unfold Registry.resolve_entry. destruct entry as [n r].
  destruct (JsObject.get (Registry.plugins this) n) as [B|].
  - destruct (negb _); intros [= _ <-]; reflexivity.
  - destruct (JsObject.inherited n); intros [= _ <-]; reflexivity.
Qed.

(** What an entry that returns has done to the store. *)
Lemma resolve_entry_returns P n r h h' :
  Registry.resolve_entry satisfies this P (n, r) h = (Return tt, h') ->
  exists B,
    JsObject.get (Registry.plugins this) n = Some B /\
    satisfies (Metadata.version (Plugin.metadata (cell h B))) r = true /\
    same_plugins h h' /\
    (forall p, Plugin.dependencies (cell h' p) =
               if Nat.eqb p P
               then Some (JsObject.put
                            (JsObject.or_empty (Plugin.dependencies (cell h p)))
                            n B)
               else Plugin.dependencies (cell h p)) /\
    (forall p, Plugin.dependents (cell h' p) =
               if Nat.eqb p B
               then Some (JsObject.put
                            (JsObject.or_empty (Plugin.dependents (cell h p)))
                            (Plugin.name (cell h P)) P)
               else Plugin.dependents (cell h p)).
Proof.
  unfold Registry.resolve_entry.
  destruct (JsObject.get (Registry.plugins this) n) as [B|];
    [|destruct (JsObject.inherited n); discriminate].
  destruct (satisfies _ r) eqn:Hsat; simpl; [|discriminate].
  intros [= <-]. exists B. repeat split; auto; try intros p; simpl;
    repeat match goal with
           | |- context [Nat.eqb ?a ?b] =>
               let E := fresh "E" in
               destruct (Nat.eqb a b) eqn:E;
               [apply Nat.eqb_eq in E; subst|]
           end;
    simpl; try reflexivity;
    repeat match goal with
           | H : Nat.eqb ?a ?a = false |- _ =>
               rewrite Nat.eqb_refl in H; discriminate
           end.
Qed.

Lemma resolve_entry_same_plugins h0 P entry h c h' :
  same_plugins h0 h ->
  Registry.resolve_entry satisfies this P entry h = (c, h') ->
  same_plugins h0 h'.
Proof.
  intros Hs H. destruct c as [[]|e].
  - destruct entry as [n r]. apply resolve_entry_returns in H.
    destruct H as [B [_ [_ [Hsame _]]]].
    intros p. destruct (Hs p), (Hsame p). split; congruence.
  - apply resolve_entry_throws in H. now subst.
Qed.

Lemma resolve_plugin_same_plugins h0 registration h c h' :
  same_plugins h0 h ->
  Registry.resolve_plugin satisfies this registration h = (c, h') ->
  same_plugins h0 h'.
Proof.
  unfold Registry.resolve_plugin.
  destruct registration as [key P]. intros Hs.
  apply (forEach_invariant _ (same_plugins h0)); auto.
  intros x s c' s' _ Hx. apply resolve_entry_same_plugins. exact Hx.
Qed.

End ResolveFacts.

Lemma values_opt_or_empty {V} (o : option (JsObject.obj V)) :
  JsObject.values_opt o = JsObject.values (JsObject.or_empty o).
Proof. destruct o; reflexivity. Qed.

Lemma registration_registered this key P :
  In (key, P) (JsObject.own_entries (Registry.plugins this)) ->
  registered this P.
Proof.
  intros H. unfold registered, JsObject.values.
  apply in_map_iff. exists (key, P). auto.
Qed.

Section ResolveLinks.
Variable satisfies : string -> string -> bool.
Variable this : Registry.t.

(** An entry adds links to registered plugins only. *)
Lemma resolve_entry_links_closed P entry h c h' :
  registered this P ->
  links_closed this h ->
  Registry.resolve_entry satisfies this P entry h = (c, h') ->
  links_closed this h'.
Proof.
  intros HP Hclosed H. destruct c as [[]|e].
  - destruct entry as [n r]. apply resolve_entry_returns in H.
    destruct H as [B [HB [_ [_ [Hdeps _]]]]].
    intros p q Hp Hq. unfold depends_on in Hq. rewrite Hdeps in Hq.
    destruct (Nat.eqb p P) eqn:E.
    + apply Nat.eqb_eq in E. subst p. simpl in Hq.
      apply values_In in Hq. destruct Hq as [k Hk].
      apply put_In in Hk. destruct Hk as [[= -> ->]|Hk].
      * apply (get_values _ _ _ HB).
      * apply (Hclosed P q HP). unfold depends_on.
        rewrite values_opt_or_empty. apply values_In. eauto.
    + apply (Hclosed p q Hp Hq).
  - apply resolve_entry_throws in H. now subst.
Qed.

Lemma resolve_links_closed h c h' :
  links_closed this h ->
  Registry.resolve satisfies this h = (c, h') ->
  links_closed this h'.
Proof.
  unfold Registry.resolve.
  apply (forEach_invariant _ (links_closed this)).
  intros [key P] s c' s' Hin Hs. unfold Registry.resolve_plugin.
  apply (forEach_invariant _ (links_closed this)); auto.
  intros entry t c'' t' _ Ht.
  apply resolve_entry_links_closed; auto.
  apply (registration_registered _ _ _ Hin).
Qed.

End ResolveLinks.

(** The first traversal of [prioritize] moves only plugins without
    dependencies, and loses none. *)
Lemma seeding_pass h values remaining ordered :
  forEach_move (fun plugin _ => Registry.hasNoDependencies h plugin)
    (List.length values) 0 values [] = (remaining, ordered) ->
  Permutation (ordered ++ remaining) values /\
  dependencies_first h ordered /\
  List.length remaining <= List.length values.
Proof.
  intros H. repeat split.
  - apply forEach_move_Permutation in H. exact H.
  - apply (forEach_move_invariant _ (dependencies_first h) _ _ _ _ _ _
             (fun p t Ht Hs => dependencies_first_push h t p Ht
                (fun q Hq => False_ind _ (hasNoDependencies_true h p q Hs Hq)))
             H).
    intros i p Hi. destruct i; discriminate.
  - apply forEach_move_length in H. exact H.
Qed.

(** Whatever [satisfy] returns lists dependencies first, if [ordered]
    did. *)
Lemma satisfy_dependencies_first h depth ordered remaining result :
  Registry.satisfy depth h ordered remaining = Some result ->
  dependencies_first h ordered ->
  dependencies_first h result.
Proof.
  revert ordered remaining.
  induction depth as [|depth IH]; intros ordered remaining; simpl;
    [discriminate|].
  destruct (forEach_move (Registry.isSatisfied h) (List.length remaining) 0
              remaining ordered) as [source target] eqn:Hpass.
  intros H Hfirst.
  assert (Hfirst' : dependencies_first h target).
  { apply (forEach_move_invariant _ (dependencies_first h) _ _ _ _ _ _
             (fun p t Ht Hs => dependencies_first_push h t p Ht
                                 (proj1 (isSatisfied_true h p t) Hs))
             Hpass Hfirst). }
  destruct source as [|s source].
  - now injection H as <-.
  - apply (IH _ _ H Hfirst').
Qed.

(** What [prioritize()] leaves when it returns. *)
Lemma prioritize_returns depth this h this' :
  Registry.prioritize depth this h = Some this' ->
  Registry.plugins this' = Registry.plugins this /\
  Permutation (Registry.prioritized this')
    (JsObject.values (Registry.plugins this)) /\
  dependencies_first h (Registry.prioritized this').
Proof.
  unfold Registry.prioritize.
  destruct (forEach_move _ _ 0 (JsObject.values (Registry.plugins this)) [])
    as [remaining ordered] eqn:Hseed.
  apply seeding_pass in Hseed. destruct Hseed as [Hperm [Hfirst _]].
  destruct (Registry.satisfy depth h ordered remaining) as [result|] eqn:Hs;
    [|discriminate].
  intros [= <-]. simpl. rewrite PluginCollection_id. repeat split.
  - apply satisfy_Permutation in Hs. now rewrite Hs.
  - apply (satisfy_dependencies_first _ _ _ _ _ Hs Hfirst).
Qed.

(** No plugin of an order that lists dependencies first reaches itself. *)
Lemma dependencies_first_no_cycle h order p :
  dependencies_first h order ->
  In p order ->
  ~ clos_trans loc (depends_on h) p p.
Proof.
  intros Hfirst Hin Hcycle.
  assert (Hdown : forall a b, clos_trans loc (depends_on h) a b ->
            forall i, nth_error order i = Some a ->
            exists j, j < i /\ nth_error order j = Some b).
  { intros a b Hab. induction Hab as [a b Hab|a b c _ IH1 _ IH2]; intros i Hi.
    - apply (Hfirst i a Hi b Hab).
    - destruct (IH1 i Hi) as [j [Hj Hnth]].
      destruct (IH2 j Hnth) as [k [Hk Hnth']].
      exists k. split; [lia|assumption]. }
  assert (Hnever : forall i, nth_error order i <> Some p).
  { intros i. induction i as [i IH] using lt_wf_ind. intros Hi.
    destruct (Hdown p p Hcycle i Hi) as [j [Hj Hnth]].
    apply (IH j Hj Hnth). }
  destruct (In_nth_error _ _ Hin) as [i Hi]. apply (Hnever i Hi).
Qed.

(** Plugins without links have closed links. *)
Lemma unlinked_links_closed this h :
  (forall p, registered this p -> Plugin.dependencies (cell h p) = None) ->
  links_closed this h.
Proof.
  intros Hnone p q Hp Hq. unfold depends_on in Hq.
  rewrite (Hnone p Hp) in Hq. destruct Hq.
Qed.

(** With links that lead to registered plugins and form no cycle,
    [prioritize()] returns, and what it leaves lists every registered
    plugin, dependencies first. *)
Lemma prioritize_returns_on_sound_links this h depth :
  links_closed this h ->
  acyclic this h ->
  List.length (JsObject.values (Registry.plugins this)) < depth ->
  exists this',
    Registry.prioritize depth this h = Some this' /\
    dependencies_first h (Registry.prioritized this') /\
    Permutation (Registry.prioritized this')
      (JsObject.values (Registry.plugins this)).
Proof.
  intros Hclosed Hacyclic Hdepth.
  destruct (Registry.prioritize depth this h) as [this'|] eqn:Hp.
  - exists this'. apply prioritize_returns in Hp. tauto.
  - exfalso. unfold Registry.prioritize in Hp.
    destruct (forEach_move _ _ 0 (JsObject.values (Registry.plugins this)) [])
      as [remaining ordered] eqn:Hseed.
    apply seeding_pass in Hseed. destruct Hseed as [Hperm [Hfirst Hlen]].
    assert (Hin : forall x, In x (ordered ++ remaining) <->
                            registered this x).
    { intros x. unfold registered. split; apply Permutation_in;
        [exact Hperm | symmetry; exact Hperm]. }
    destruct (satisfy_returns h depth ordered remaining)
      as [result [Hs _]]; auto.
    + intros p q Hp' Hq. apply Hin. apply (Hclosed p q); auto.
      now apply Hin.
    + intros p Hp'. apply Hacyclic. now apply Hin.
    + lia.
    + now rewrite Hs in Hp.
Qed.

(** Every link [resolve()] gives a registered plugin leads to a
    registered plugin. *)
Lemma resolve_adds_registered_links satisfies this h0 c h :
  Registry.resolve satisfies this h0 = (c, h) ->
  forall p q, registered this p -> depends_on h p q ->
              registered this q \/ depends_on h0 p q.
Proof.
  unfold Registry.resolve.
  apply (forEach_invariant _
           (fun t => forall p q, registered this p -> depends_on t p q ->
                                 registered this q \/ depends_on h0 p q));
    auto.
  intros [key P] s c' s' HP Hs. unfold Registry.resolve_plugin.
  apply (forEach_invariant _
           (fun t => forall p q, registered this p -> depends_on t p q ->
                                 registered this q \/ depends_on h0 p q));
    auto.
  intros entry t c'' t' _ Ht H. destruct c'' as [[]|e].
  - destruct entry as [n r]. apply resolve_entry_returns in H.
    destruct H as [B [HB [_ [_ [Hdeps _]]]]].
    intros p q Hp Hq. unfold depends_on in Hq. rewrite Hdeps in Hq.
    destruct (Nat.eqb p P) eqn:E.
    + apply Nat.eqb_eq in E. subst p. simpl in Hq.
      apply values_In in Hq. destruct Hq as [k Hk].
      apply put_In in Hk. destruct Hk as [[= -> ->]|Hk].
      * left. apply (get_values _ _ _ HB).
      * apply (Ht P q Hp). unfold depends_on.
        rewrite values_opt_or_empty. apply values_In. eauto.
    + apply (Ht p q Hp Hq).
  - apply resolve_entry_throws in H. now subst.
Qed.

(** ** The properties *)

(** C4 (as amended).  For every registry and every name absent from its
    plugin map, [del(name)] returns true and leaves the registry as it
    was. *)
Theorem del_absent_returns_true (name : string) (this : Registry.t) :
  Registry.get name this = None ->
  Registry.del name this = (true, this).
Proof.
  unfold Registry.get, Registry.del. intros H.
  pose proof (delete_absent _ _ H) as Hd.
  destruct (JsObject.delete (Registry.plugins this) name) as [answer o] eqn:E.
  unfold JsObject.delete in E. injection E as <- <-.
  simpl in Hd. rewrite Hd. destruct this; reflexivity.
Qed.

Lemma del_absent_returns_true_witness :
  Registry.del "ghost" Samples.fresh = (true, Samples.fresh).
Proof. apply del_absent_returns_true. reflexivity. Defined.

(** C4 as stated fails: on the empty registry, where "ghost" is absent,
    [del("ghost")] does not return false. *)
Lemma del_absent_does_not_return_false :
  Registry.get "ghost" Samples.fresh = None /\
  ~ (fst (Registry.del "ghost" Samples.fresh) = false /\
     Registry.plugins (snd (Registry.del "ghost" Samples.fresh)) =
     Registry.plugins Samples.fresh).
Proof. split; [reflexivity|]. intros [H _]. discriminate H. Qed.

(** C10.  When a plugin is already stored under [name], [set(name, p)]
    with a Plugin instance [p] does not throw: it returns [p], stores [p]
    under [name] in the place of the old plugin (no key is added, moved or
    changed otherwise); and [plugin(name, metadata)], with metadata given
    and [new Plugin(name, metadata)] yielding [p], does the same. *)
Theorem set_replaces_registration
    (new_Plugin : string -> Metadata.t -> heap -> completion loc * heap)
    (name : string) (old p : loc) (this : Registry.t) :
  Registry.get name this = Some old ->
  exists this',
    Registry.set name (Registry.IsPlugin p) this = (Return p, this') /\
    Registry.get name this' = Some p /\
    (forall other, other <> name ->
                   Registry.get other this' = Registry.get other this) /\
    JsObject.keys (Registry.plugins this') =
    JsObject.keys (Registry.plugins this) /\
    (forall metadata h h',
       new_Plugin name metadata h = (Return p, h') ->
       Registry.plugin new_Plugin name (Some metadata) this h =
       (Return (Some p), this', h')).
Proof.
  intros Hold. eexists. split; [reflexivity|].
  unfold Registry.get in *. simpl. repeat split.
  - apply get_put_same.
  - intros other Hne. now apply get_put_other.
  - apply keys_determined. apply (put_keys_existing _ _ _ _ Hold).
  - intros metadata h h' Hnew. now rewrite Hnew.
Qed.

Lemma set_replaces_registration_witness :
  exists this',
    Registry.set "b" (Registry.IsPlugin 0) (fst Samples.pair) =
    (Return 0, this') /\
    Registry.get "b" this' = Some 0 /\
    (forall other, other <> "b" ->
       Registry.get other this' = Registry.get other (fst Samples.pair)) /\
    JsObject.keys (Registry.plugins this') = ["a"; "b"] /\
    (forall metadata h h',
       Samples.new_Plugin "b" metadata h = (Return 0, h') ->
       Registry.plugin Samples.new_Plugin "b" (Some metadata)
         (fst Samples.pair) h = (Return (Some 0), this', h')).
Proof.
  apply (set_replaces_registration Samples.new_Plugin "b" 1 0
           (fst Samples.pair)).
  reflexivity.
Defined.

(** The constructor of a collection pushes the items in order. *)
Lemma constructor_items (collection : DependencyCollection.source) :
  DependencyCollection.constructor collection =
  DependencyCollection.lodash_values collection.
Proof. unfold DependencyCollection.constructor. now rewrite push_all. Qed.

(** C9.  [values()] of a collection bound to an injector calls
    [injector.get] on the name of each descriptor, in collection order.
    When it returns, the sequence has the length of the collection and its
    element at position [i] is what [injector.get] returned for the name of
    the descriptor at position [i]; when the call for some position throws,
    [values()] throws that very error; and when the calls for all the
    positions return, [values()] returns what they returned. *)
Theorem values_resolves_in_order
    (Injector Instance : Type)
    (injector_get : string -> Injector -> completion Instance * Injector)
    (this : list DependencyCollection.Descriptor) (inj : Injector) :
  (forall instances inj',
     DependencyCollection.values Injector Instance injector_get this inj =
     (Return instances, inj') ->
     List.length instances = List.length this /\
     forall i descriptor,
       nth_error this i = Some descriptor ->
       exists inj_i inj_i' instance,
         DependencyCollection.injector_at Injector Instance injector_get
           this inj i = Some inj_i /\
         injector_get (DependencyCollection.name descriptor) inj_i =
         (Return instance, inj_i') /\
         nth_error instances i = Some instance) /\
  (forall i descriptor inj_i e inj_i',
     nth_error this i = Some descriptor ->
     DependencyCollection.injector_at Injector Instance injector_get
       this inj i = Some inj_i ->
     injector_get (DependencyCollection.name descriptor) inj_i =
     (Throw e, inj_i') ->
     DependencyCollection.values Injector Instance injector_get this inj =
     (Throw e, inj_i')) /\
  (forall instances,
     List.length instances = List.length this ->
     (forall i descriptor,
        nth_error this i = Some descriptor ->
        exists inj_i inj_i' instance,
          DependencyCollection.injector_at Injector Instance injector_get
            this inj i = Some inj_i /\
          injector_get (DependencyCollection.name descriptor) inj_i =
          (Return instance, inj_i') /\
          nth_error instances i = Some instance) ->
     exists inj',
       DependencyCollection.injector_at Injector Instance injector_get
         this inj (List.length this) = Some inj' /\
       DependencyCollection.values Injector Instance injector_get this inj =
       (Return instances, inj')).
Proof.
  revert inj. induction this as [|d rest IH]; intros inj; repeat split.
  - simpl in H. now injection H as <- <-.
  - intros [|i] descriptor; discriminate.
  - intros [|i] descriptor; discriminate.
  - intros instances Hlen _. destruct instances; [|discriminate].
    exists inj. split; reflexivity.
  - simpl in H.
    destruct (injector_get (DependencyCollection.name d) inj)
      as [[v|e] inj1] eqn:Hget; [|discriminate].
    destruct (DependencyCollection.values _ _ _ rest inj1)
      as [[vs|e] inj2] eqn:Hrest; [|discriminate].
    injection H as <- <-.
    destruct (proj1 (IH inj1) vs inj2 Hrest) as [Hlen _].
    simpl. now rewrite Hlen.
  - simpl in H.
    destruct (injector_get (DependencyCollection.name d) inj)
      as [[v|e] inj1] eqn:Hget; [|discriminate].
    destruct (DependencyCollection.values _ _ _ rest inj1)
      as [[vs|e] inj2] eqn:Hrest; [|discriminate].
    injection H as <- <-.
    destruct (proj1 (IH inj1) vs inj2 Hrest) as [_ Hnth].
    intros [|i] descriptor; simpl.
    + intros [= <-]. exists inj, inj1, v. auto.
    + intros Hi. rewrite Hget. apply (Hnth i descriptor Hi).
  - intros [|i] descriptor inj_i e inj_i'; simpl.
    + intros [= <-] [= <-] Hget. now rewrite Hget.
    + intros Hi.
      destruct (injector_get (DependencyCollection.name d) inj)
        as [[v|e0] inj1] eqn:Hget; [|discriminate].
      intros Hat Hthrow.
      now rewrite (proj1 (proj2 (IH inj1)) i descriptor inj_i e inj_i'
                     Hi Hat Hthrow).
  - intros instances Hlen Hall.
    destruct instances as [|v0 vs]; [discriminate|].
    destruct (Hall 0 d eq_refl) as [inj_0 [inj1 [v [H0 [Hget Hv]]]]].
    simpl in H0, Hv. injection H0 as <-. injection Hv as <-.
    simpl. rewrite Hget.
    destruct (proj2 (proj2 (IH inj1)) vs) as [inj' [Hat Hvalues]].
    + simpl in Hlen. lia.
    + intros i descriptor Hi.
      destruct (Hall (S i) descriptor Hi) as [inj_i [inj_i' [w [Hat H]]]].
      simpl in Hat, H. rewrite Hget in Hat. eauto.
    + exists inj'. split; auto. now rewrite Hvalues.
Qed.

Lemma values_resolves_in_order_witness :
  List.length ["instance of a"; "instance of b"] = 2 /\
  DependencyCollection.values nat string Samples.injector_get
    [Samples.descriptor "a"; Samples.descriptor "zz"; Samples.descriptor "b"]
    0 = (Throw (mkError "Unknown dependency zz"), 1) /\
  exists inj',
    DependencyCollection.injector_at nat string Samples.injector_get
      [Samples.descriptor "a"; Samples.descriptor "b"] 0 2 = Some inj' /\
    DependencyCollection.values nat string Samples.injector_get
      [Samples.descriptor "a"; Samples.descriptor "b"] 0
    = (Return ["instance of a"; "instance of b"], inj').
Proof.
  split; [|split].
  - apply (proj1 (values_resolves_in_order nat string Samples.injector_get
                    [Samples.descriptor "a"; Samples.descriptor "b"] 0)
             _ 2 eq_refl).
  - apply (proj1 (proj2 (values_resolves_in_order nat string
                           Samples.injector_get
                           [Samples.descriptor "a"; Samples.descriptor "zz";
                            Samples.descriptor "b"] 0))
             1 (Samples.descriptor "zz") 1 _ 1 eq_refl eq_refl eq_refl).
  - apply (proj2 (proj2 (values_resolves_in_order nat string
                           Samples.injector_get
                           [Samples.descriptor "a"; Samples.descriptor "b"]
                           0))
             ["instance of a"; "instance of b"] eq_refl).
    intros [|[|i]] descriptor; simpl; try discriminate.
    + intros [= <-]. exists 0, 1, "instance of a". repeat split.
    + intros [= <-]. exists 1, 2, "instance of b". repeat split.
    + destruct i; discriminate.
Defined.

(** C8 (as amended).  Whenever [prioritize()] returns, [prioritized] is a
    rearrangement of [_.values] of the registry map: every registered
    plugin appears as often as the map holds it (once when it is stored
    under one name), nothing else appears, and the map is untouched.  Before that, [prioritized] is empty (as
    the constructor leaves it) or stale: [set], [del] and [plugin] do not
    touch it. *)
Theorem prioritized_is_permutation :
  (forall depth this h this',
     Registry.prioritize depth this h = Some this' ->
     Permutation (Registry.prioritized this')
       (JsObject.values (Registry.plugins this)) /\
     Registry.plugins this' = Registry.plugins this) /\
  (forall default_directory options,
     Registry.prioritized (Registry.constructor default_directory options)
     = []) /\
  (forall name plugin this,
     Registry.prioritized (snd (Registry.set name plugin this)) =
     Registry.prioritized this) /\
  (forall name this,
     Registry.prioritized (snd (Registry.del name this)) =
     Registry.prioritized this) /\
  (forall new_Plugin name metadata this h,
     Registry.prioritized
       (snd (fst (Registry.plugin new_Plugin name metadata this h))) =
     Registry.prioritized this).
Proof.
  repeat split.
  - apply (prioritize_returns _ _ _ _ H).
  - apply (prioritize_returns _ _ _ _ H).
  - intros name plugin this. now destruct plugin.
  - intros new_Plugin name metadata this h. unfold Registry.plugin.
    destruct metadata as [md|]; auto.
    destruct (new_Plugin name md h) as [[p|e] h']; auto.
Qed.

Lemma prioritized_is_permutation_witness :
  Permutation [2; 1; 0]
    (JsObject.values (Registry.plugins (fst Samples.chain))).
Proof.
  apply (proj1 prioritized_is_permutation 3 (fst Samples.chain)
           (snd (Samples.resolved Samples.chain))
           {| Registry.plugins := Registry.plugins (fst Samples.chain);
              Registry.prioritized := [2; 1; 0];
              Registry.directories := ["/srv/plugins"] |}
           eq_refl).
Defined.

(** C8 as stated fails: with the plugin a stored under the names a and b,
    [prioritize()] returns the order a, a, in which a registered plugin
    appears twice, not exactly once. *)
Lemma prioritized_repeats_shared_plugin :
  Registry.get "a" (fst Samples.shared) = Some 0 /\
  Registry.get "b" (fst Samples.shared) = Some 0 /\
  option_map Registry.prioritized
    (Registry.prioritize 1 (fst Samples.shared) (snd Samples.shared))
  = Some [0; 0] /\
  count_occ Nat.eq_dec [0; 0] 0 = 2 /\
  ~ NoDup [0; 0].
Proof.
  repeat split. intros H. inversion H as [|x l Hin _]. apply Hin. now left.
Qed.

(** C1.  The links [resolve()] gives the registered plugins lead to
    registered plugins (first part).  For registered plugins whose links
    do so and among which none reaches itself (second part),
    [prioritize()] returns, within a recursion depth of the number of
    plugins plus one; the order it produces holds every registered plugin,
    and in it every plugin in the [dependencies] of a plugin stands at a
    smaller index than that plugin.  (Both conditions are needed:
    [prioritize()] returns on no other links.) *)
Theorem prioritize_places_dependencies_first
    (satisfies : string -> string -> bool) (this : Registry.t) :
  (forall h0 h c,
     Registry.resolve satisfies this h0 = (c, h) ->
     forall p q, registered this p -> depends_on h p q ->
                 registered this q \/ depends_on h0 p q) /\
  (forall h depth,
     links_closed this h ->
     acyclic this h ->
     List.length (JsObject.values (Registry.plugins this)) < depth ->
     exists this',
       Registry.prioritize depth this h = Some this' /\
       dependencies_first h (Registry.prioritized this') /\
       Permutation (Registry.prioritized this')
         (JsObject.values (Registry.plugins this))).
Proof.
  split.
  - intros h0 h c. apply resolve_adds_registered_links.
  - intros h depth. apply prioritize_returns_on_sound_links.
Qed.

(** A rank that falls along every link rules cycles out. *)
Lemma ranked_acyclic (this : Registry.t) (h : heap) (rank : loc -> nat) :
  (forall p q, depends_on h p q -> rank q < rank p) -> acyclic this h.
Proof.
  intros Hrank p _ Hcycle.
  assert (H : forall a b, clos_trans loc (depends_on h) a b -> rank b < rank a).
  { intros a b Hab. induction Hab as [a b Hab|a b c _ IH1 _ IH2].
    - now apply Hrank.
    - lia. }
  specialize (H p p Hcycle). lia.
Qed.

Lemma prioritize_places_dependencies_first_witness :
  exists this',
    Registry.prioritize 4 (fst Samples.chain)
      (snd (Samples.resolved Samples.chain)) = Some this' /\
    dependencies_first (snd (Samples.resolved Samples.chain))
      (Registry.prioritized this') /\
    Permutation (Registry.prioritized this')
      (JsObject.values (Registry.plugins (fst Samples.chain))).
Proof.
  apply (proj2 (prioritize_places_dependencies_first Samples.satisfies
                  (fst Samples.chain))
           (snd (Samples.resolved Samples.chain)) 4).
  - intros p q Hp Hq. vm_compute in Hp.
    destruct Hp as [<-|[<-|[<-|[]]]]; vm_compute in Hq;
      repeat (destruct Hq as [<-|Hq]; [vm_compute; auto|]); destruct Hq.
  - apply (ranked_acyclic _ _ (fun p => 2 - p)).
    intros p q Hq. unfold depends_on in Hq.
    destruct p as [|[|[|p]]]; vm_compute in Hq;
      repeat (destruct Hq as [<-|Hq]; [simpl; lia|]); destruct Hq.
  - vm_compute. lia.
Defined.

(** C2 (what the code does at a cycle).  When some registered plugin
    reaches itself along its dependency links, [prioritize()] does not
    return at any depth of recursion: [satisfy] calls itself for ever, and
    no cyclic-dependency error is ever raised. *)
Theorem prioritize_cycle_recurses_without_end
    (this : Registry.t) (h : heap) (p : loc) :
  registered this p ->
  clos_trans loc (depends_on h) p p ->
  forall depth, Registry.prioritize depth this h = None.
Proof.
  intros Hp Hcycle depth.
  destruct (Registry.prioritize depth this h) as [this'|] eqn:H; auto.
  exfalso. apply prioritize_returns in H. destruct H as [_ [Hperm Hfirst]].
  apply (dependencies_first_no_cycle h _ p Hfirst); auto.
  apply Permutation_in with (l := JsObject.values (Registry.plugins this));
    [symmetry; exact Hperm | exact Hp].
Qed.

(** a needs b and b needs a: [resolve()] returns and links them, and
    [prioritize()] returns at no depth. *)
Lemma prioritize_cycle_recurses_without_end_witness :
  fst (Registry.resolve Samples.satisfies
         (fst Samples.cycle) (snd Samples.cycle)) = Return tt /\
  forall depth,
    Registry.prioritize depth (fst Samples.cycle)
      (snd (Samples.resolved Samples.cycle)) = None.
Proof.
  split; [reflexivity|].
  apply (prioritize_cycle_recurses_without_end (fst Samples.cycle)
           (snd (Samples.resolved Samples.cycle)) 0).
  - vm_compute. auto.
  - apply t_trans with 1; apply t_step; vm_compute; auto.
Defined.

(** C3 (what the code does with three independent plugins).  Let a, b and
    c be the registry's plugins, in the order of registration, none with
    dependencies, so that all three are eligible in the first traversal of
    [prioritize()].  The traversal moves a, skips b, which the splice has
    shifted into the index just visited, and moves c; b follows in
    [satisfy].  The order is a, c, b. *)
Theorem prioritize_skips_after_each_move
    (this : Registry.t) (h : heap) (a b c : loc) (depth : nat) :
  JsObject.values (Registry.plugins this) = [a; b; c] ->
  Registry.hasNoDependencies h a = true ->
  Registry.hasNoDependencies h b = true ->
  Registry.hasNoDependencies h c = true ->
  option_map Registry.prioritized (Registry.prioritize (S depth) this h)
  = Some [a; c; b].
Proof.
  intros Hvalues Ha Hb Hc.
  assert (Hready : Registry.isSatisfied h b [a; c] = true).
  { apply isSatisfied_true. intros q Hq.
    destruct (hasNoDependencies_true h b q Hb Hq). }
  unfold Registry.prioritize. rewrite Hvalues. simpl.
  rewrite Ha. simpl. rewrite Hc. simpl. rewrite Hready. reflexivity.
Qed.

Lemma prioritize_skips_after_each_move_witness :
  JsObject.keys (Registry.plugins (fst Samples.independent))
  = ["a"; "b"; "c"] /\
  option_map Registry.prioritized
    (Registry.prioritize 1 (fst Samples.independent)
       (snd (Samples.resolved Samples.independent))) = Some [0; 2; 1].
Proof.
  split; [reflexivity|].
  apply (prioritize_skips_after_each_move (fst Samples.independent)
           (snd (Samples.resolved Samples.independent)) 0 1 2 0);
    reflexivity.
Defined.

Section ResolveOutcome.
Variable satisfies : string -> string -> bool.
Variable this : Registry.t.

(** An entry that throws wherever it is reached makes [resolve()] throw;
    and when the entries before it return, it is its error that
    [resolve()] throws, in the store those entries left. *)
Lemma resolve_stops_at_entry h key A entry e :
  In (key, A) (JsObject.own_entries (Registry.plugins this)) ->
  In entry (JsObject.own_entries (declared h A)) ->
  (forall t, same_plugins h t ->
             Registry.resolve_entry satisfies this A entry t = (Throw e, t)) ->
  (exists e' h', Registry.resolve satisfies this h = (Throw e', h')) /\
  (forall before after dbefore dafter h1 h2,
     JsObject.own_entries (Registry.plugins this) =
       before ++ (key, A) :: after ->
     forEach (Registry.resolve_plugin satisfies this) before h =
       (Return tt, h1) ->
     JsObject.own_entries (declared h A) = dbefore ++ entry :: dafter ->
     forEach (Registry.resolve_entry satisfies this A) dbefore h1 =
       (Return tt, h2) ->
     Registry.resolve satisfies this h = (Throw e, h2)).
Proof.
  intros HA Hentry Hthrow. split.
  - unfold Registry.resolve.
    apply (forEach_must_throw _ (same_plugins h) _ (key, A)); auto.
    + intros y s c s' _. apply resolve_plugin_same_plugins.
    + intros s Hs. unfold Registry.resolve_plugin.
      apply (forEach_must_throw _ (same_plugins h) _ entry); auto.
      * fold (declared s A). now rewrite (same_plugins_declared h s A Hs).
      * intros y t c t' _. apply resolve_entry_same_plugins.
      * intros t Ht. rewrite (Hthrow t Ht). eauto.
    + apply same_plugins_refl.
  - intros before after dbefore dafter h1 h2 Hsplit Hbefore Hdsplit Hdbefore.
    assert (Hs1 : same_plugins h h1).
    { apply (forEach_invariant _ (same_plugins h) before
               (fun y s c s' _ => resolve_plugin_same_plugins
                                    satisfies this h y s c s')
               h _ h1 (same_plugins_refl h) Hbefore). }
    assert (Hs2 : same_plugins h h2).
    { apply (forEach_invariant _ (same_plugins h) dbefore
               (fun y s c s' _ => resolve_entry_same_plugins
                                    satisfies this h A y s c s')
               h1 _ h2 Hs1 Hdbefore). }
    unfold Registry.resolve. rewrite Hsplit.
    apply (forEach_first_throw _ _ _ _ _ h1); auto.
    unfold Registry.resolve_plugin. fold (declared h1 A).
    rewrite (same_plugins_declared h h1 A Hs1), Hdsplit.
    apply (forEach_first_throw _ _ _ _ _ h2); auto.
Qed.

(** What the entry of [A] for [entry] establishes, and every returning
    entry keeps, holds when [resolve()] returns. *)
Lemma resolve_reaches (Q : heap -> Prop) h key A entry :
  In (key, A) (JsObject.own_entries (Registry.plugins this)) ->
  In entry (JsObject.own_entries (declared h A)) ->
  (forall key' P entry' t t',
     In (key', P) (JsObject.own_entries (Registry.plugins this)) ->
     same_plugins h t -> Q t ->
     Registry.resolve_entry satisfies this P entry' t = (Return tt, t') ->
     Q t') ->
  (forall t t',
     same_plugins h t ->
     Registry.resolve_entry satisfies this A entry t = (Return tt, t') ->
     Q t') ->
  forall h', Registry.resolve satisfies this h = (Return tt, h') -> Q h'.
Proof.
  intros HA Hentry Hkeep Hmake h'. unfold Registry.resolve.
  apply (forEach_reaches _ (same_plugins h) Q _ (key, A)); auto.
  - intros y s c s' _. apply resolve_plugin_same_plugins.
  - intros [key' P] s s' Hin Hs Hq. unfold Registry.resolve_plugin.
    apply (forEach_preserves _ (same_plugins h) Q); auto.
    + intros y t c t' _. apply resolve_entry_same_plugins.
    + intros y t t' _. apply (Hkeep key' P y t t' Hin).
  - intros s s' Hs. unfold Registry.resolve_plugin.
    apply (forEach_reaches _ (same_plugins h) Q _ entry); auto.
    + fold (declared s A). now rewrite (same_plugins_declared h s A Hs).
    + intros y t c t' _. apply resolve_entry_same_plugins.
    + intros y t t' _. apply (Hkeep key A y t t' HA).
  - apply same_plugins_refl.
Qed.

End ResolveOutcome.

(** C5 (as amended).  When a registered plugin A declares a dependency on
    a name that is neither in the registry map nor inherited by it from
    [Object.prototype], [resolve()] throws.  It throws at the first entry
    that fails; when the entries before this one return, the error is
    Error("Dependency <name> missing."), built from the missing name
    alone, and the store is the one those entries left: the entry has
    linked nothing.  (Under an inherited name, such as constructor, the
    test of presence finds what the map inherits, and the error is a
    TypeError.) *)
Theorem resolve_missing_dependency
    (satisfies : string -> string -> bool)
    (this : Registry.t) (h : heap) (key : string) (A : loc)
    (name range : string) :
  Registry.get key this = Some A ->
  JsObject.get (declared h A) name = Some range ->
  Registry.get name this = None ->
  JsObject.inherited name = false ->
  (exists e h', Registry.resolve satisfies this h = (Throw e, h')) /\
  (forall before after dbefore dafter h1 h2,
     JsObject.own_entries (Registry.plugins this) =
       before ++ (key, A) :: after ->
     forEach (Registry.resolve_plugin satisfies this) before h =
       (Return tt, h1) ->
     JsObject.own_entries (declared h A) =
       dbefore ++ (name, range) :: dafter ->
     forEach (Registry.resolve_entry satisfies this A) dbefore h1 =
       (Return tt, h2) ->
     Registry.resolve satisfies this h =
       (Throw (MissingDependencyError name), h2)).
Proof.
  intros HA Hdecl Hmissing Hown.
  apply (resolve_stops_at_entry satisfies this h key A (name, range)).
  - apply own_entries_In. now apply get_In.
  - apply own_entries_In. now apply get_In.
  - intros t _. unfold Registry.resolve_entry.
    unfold Registry.get in Hmissing. now rewrite Hmissing, Hown.
Qed.

Lemma resolve_missing_dependency_witness :
  Registry.resolve Samples.satisfies (fst Samples.ghost) (snd Samples.ghost)
  = (Throw (MissingDependencyError "ghost"), snd Samples.ghost).
Proof.
  apply (proj2 (resolve_missing_dependency Samples.satisfies
                  (fst Samples.ghost) (snd Samples.ghost)
                  "alpha" 0 "ghost" "*" eq_refl eq_refl eq_refl eq_refl)
           [] [] [] [] (snd Samples.ghost) (snd Samples.ghost)
           eq_refl eq_refl eq_refl eq_refl).
Defined.

(** C5 as stated fails: alpha, the only plugin, needs the unregistered
    ghost; the error [resolve()] throws reads "Dependency ghost missing."
    and does not name alpha. *)
Lemma resolve_missing_dependency_omits_plugin :
  Registry.get "alpha" (fst Samples.ghost) = Some 0 /\
  Plugin.name (cell (snd Samples.ghost) 0) = "alpha" /\
  JsObject.get (declared (snd Samples.ghost) 0) "ghost" = Some "*" /\
  Registry.get "ghost" (fst Samples.ghost) = None /\
  exists e,
    fst (Registry.resolve Samples.satisfies
           (fst Samples.ghost) (snd Samples.ghost)) = Throw e /\
    message e = "Dependency ghost missing." /\
    mentions "ghost" (message e) = true /\
    mentions "alpha" (message e) = false.
Proof.
  repeat split. exists (mkError "Dependency ghost missing."). repeat split.
Qed.

(** C6 (as amended).  When a registered plugin A declares a dependency on
    a registered plugin B in a range that B's [metadata.version] does not
    satisfy, [resolve()] throws.  It throws at the first entry that fails;
    when the entries before this one return, the error is
    Error("<name> <version> does not satisfy <range>."), giving the
    dependency's name, its version and the range asked for. *)
Theorem resolve_version_mismatch
    (satisfies : string -> string -> bool)
    (this : Registry.t) (h : heap) (key : string) (A B : loc)
    (name range : string) :
  Registry.get key this = Some A ->
  JsObject.get (declared h A) name = Some range ->
  Registry.get name this = Some B ->
  satisfies (Metadata.version (Plugin.metadata (cell h B))) range = false ->
  (exists e h', Registry.resolve satisfies this h = (Throw e, h')) /\
  (forall before after dbefore dafter h1 h2,
     JsObject.own_entries (Registry.plugins this) =
       before ++ (key, A) :: after ->
     forEach (Registry.resolve_plugin satisfies this) before h =
       (Return tt, h1) ->
     JsObject.own_entries (declared h A) =
       dbefore ++ (name, range) :: dafter ->
     forEach (Registry.resolve_entry satisfies this A) dbefore h1 =
       (Return tt, h2) ->
     Registry.resolve satisfies this h =
       (Throw (VersionMismatchError name
                 (Metadata.version (Plugin.metadata (cell h B))) range),
        h2)).
Proof.
  intros HA Hdecl HB Hsat.
  apply (resolve_stops_at_entry satisfies this h key A (name, range)).
  - apply own_entries_In. now apply get_In.
  - apply own_entries_In. now apply get_In.
  - intros t Ht. unfold Registry.resolve_entry.
    unfold Registry.get in HB. rewrite HB.
    rewrite (proj2 (Ht B)), Hsat. reflexivity.
Qed.

Lemma resolve_version_mismatch_witness :
  Registry.resolve Samples.satisfies
    (fst Samples.mismatch) (snd Samples.mismatch)
  = (Throw (VersionMismatchError "b" "1.0.0" "^2.0.0"), snd Samples.mismatch).
Proof.
  apply (proj2 (resolve_version_mismatch Samples.satisfies
                  (fst Samples.mismatch) (snd Samples.mismatch)
                  "a" 0 1 "b" "^2.0.0" eq_refl eq_refl eq_refl eq_refl)
           [] [("b", 1)] [] [] (snd Samples.mismatch) (snd Samples.mismatch)
           eq_refl eq_refl eq_refl eq_refl).
Defined.

(** C6 as stated fails: a needs the unregistered ghost and then b, which
    is registered at 1.0.0, in the range ^2.0.0 that 1.0.0 does not
    satisfy; [resolve()] throws "Dependency ghost missing.", not the
    version error for b. *)
Lemma resolve_version_mismatch_preempted :
  Registry.get "a" (fst Samples.ghost_then_mismatch) = Some 0 /\
  Registry.get "b" (fst Samples.ghost_then_mismatch) = Some 1 /\
  JsObject.get (declared (snd Samples.ghost_then_mismatch) 0) "b"
  = Some "^2.0.0" /\
  Metadata.version
    (Plugin.metadata (cell (snd Samples.ghost_then_mismatch) 1)) = "1.0.0" /\
  Samples.satisfies "1.0.0" "^2.0.0" = false /\
  fst (Registry.resolve Samples.satisfies
         (fst Samples.ghost_then_mismatch) (snd Samples.ghost_then_mismatch))
  = Throw (mkError "Dependency ghost missing.") /\
  fst (Registry.resolve Samples.satisfies
         (fst Samples.ghost_then_mismatch) (snd Samples.ghost_then_mismatch))
  <> Throw (VersionMismatchError "b" "1.0.0" "^2.0.0").
Proof. repeat split. discriminate. Qed.

(** C7.  Let B be registered under its name, and let A declare a
    dependency on B's name in a range B's version satisfies.  The entry
    returns, and after it [B.dependents[A.name]] is A and
    [A.dependencies[B.name]] is B.  When A is registered and [resolve()]
    returns, [A.dependencies[B.name]] is B in the store it leaves, and so
    is [B.dependents[A.name]] A, no other registered plugin bearing A's
    name. *)
Theorem resolve_links_both_ways
    (satisfies : string -> string -> bool)
    (this : Registry.t) (h : heap) (A B : loc) (range : string) :
  Registry.get (Plugin.name (cell h B)) this = Some B ->
  JsObject.get (declared h A) (Plugin.name (cell h B)) = Some range ->
  satisfies (Metadata.version (Plugin.metadata (cell h B))) range = true ->
  (exists h',
     Registry.resolve_entry satisfies this A
       (Plugin.name (cell h B), range) h = (Return tt, h') /\
     lookup (Plugin.dependents (cell h' B)) (Plugin.name (cell h A))
     = Some A /\
     lookup (Plugin.dependencies (cell h' A)) (Plugin.name (cell h B))
     = Some B) /\
  (forall key h',
     Registry.get key this = Some A ->
     Registry.resolve satisfies this h = (Return tt, h') ->
     lookup (Plugin.dependencies (cell h' A)) (Plugin.name (cell h B))
     = Some B /\
     ((forall k P,
         In (k, P) (JsObject.own_entries (Registry.plugins this)) ->
         Plugin.name (cell h P) = Plugin.name (cell h A) -> P = A) ->
      lookup (Plugin.dependents (cell h' B)) (Plugin.name (cell h A))
      = Some A)).
Proof.
  intros HB Hdecl Hsat. unfold Registry.get in HB.
  set (nameA := Plugin.name (cell h A)) in *.
  set (nameB := Plugin.name (cell h B)) in *.
  assert (Hmake : forall t t',
            same_plugins h t ->
            Registry.resolve_entry satisfies this A (nameB, range) t
            = (Return tt, t') ->
            lookup (Plugin.dependents (cell t' B)) nameA = Some A /\
            lookup (Plugin.dependencies (cell t' A)) nameB = Some B).
  { intros t t' Ht H. apply resolve_entry_returns in H.
    destruct H as [B' [HB' [_ [_ [Hdeps Hdpts]]]]].
    assert (B' = B) by congruence. subst B'.
    unfold lookup. rewrite Hdeps, Hdpts, !Nat.eqb_refl. simpl.
    rewrite (proj1 (Ht A)). fold nameA. split; apply get_put_same. }
  split.
  - assert (Hrun : exists h',
              Registry.resolve_entry satisfies this A (nameB, range) h
              = (Return tt, h')).
    { unfold Registry.resolve_entry. rewrite HB. fold nameB.
      rewrite Hsat. simpl. eauto. }
    destruct Hrun as [h' Hrun]. exists h'. split; auto.
    apply (Hmake h h' (same_plugins_refl h) Hrun).
  - intros key h' HA Hresolve.
    assert (HinA : In (key, A) (JsObject.own_entries (Registry.plugins this)))
      by (apply own_entries_In; now apply get_In).
    assert (Hentry : In (nameB, range) (JsObject.own_entries (declared h A)))
      by (apply own_entries_In; now apply get_In).
    split.
    + apply (resolve_reaches satisfies this
               (fun t => lookup (Plugin.dependencies (cell t A)) nameB
                         = Some B)
               h key A (nameB, range) HinA Hentry); auto.
      * intros key' P [n r] t t' _ Ht Hq H.
        apply resolve_entry_returns in H.
        destruct H as [B' [HB' [_ [_ [Hdeps _]]]]].
        rewrite Hdeps. destruct (Nat.eqb A P); auto.
        unfold lookup in *. simpl.
        destruct (String.eqb_spec nameB n) as [<-|Hne].
        -- assert (B' = B) by congruence. subst B'. apply get_put_same.
        -- rewrite get_put_other; auto.
      * intros t t' Ht H. apply (Hmake t t' Ht H).
    + intros Hunique.
      apply (resolve_reaches satisfies this
               (fun t => lookup (Plugin.dependents (cell t B)) nameA
                         = Some A)
               h key A (nameB, range) HinA Hentry); auto.
      * intros key' P [n r] t t' HinP Ht Hq H.
        apply resolve_entry_returns in H.
        destruct H as [B' [HB' [_ [_ [_ Hdpts]]]]].
        rewrite Hdpts. destruct (Nat.eqb B B'); auto.
        unfold lookup in *. simpl.
        destruct (String.eqb_spec nameA (Plugin.name (cell t P)))
          as [Heq|Hne].
        -- assert (P = A).
           { apply (Hunique key' P HinP). rewrite <- (proj1 (Ht P)).
             now rewrite <- Heq. }
           subst P. rewrite <- Heq. apply get_put_same.
        -- rewrite get_put_other; auto.
      * intros t t' Ht H. apply (Hmake t t' Ht H).
Qed.

Lemma resolve_links_both_ways_witness :
  lookup (Plugin.dependencies
            (cell (snd (Samples.resolved Samples.pair)) 0)) "b" = Some 1 /\
  lookup (Plugin.dependents
            (cell (snd (Samples.resolved Samples.pair)) 1)) "a" = Some 0.
Proof.
  destruct (proj2 (resolve_links_both_ways Samples.satisfies
                     (fst Samples.pair) (snd Samples.pair) 0 1 "^1.0.0"
                     eq_refl eq_refl eq_refl)
              "a" (snd (Samples.resolved Samples.pair)) eq_refl eq_refl)
    as [Hdeps Hdpts].
  split; [exact Hdeps|]. apply Hdpts.
  intros k P HP Hname. vm_compute in HP.
  destruct HP as [[= <- <-]|[[= <- <-]|[]]]; [reflexivity|discriminate].
Defined.

(** ** Further properties of the registry map *)

Section MoreTableFacts.
Context {V : Type}.
Implicit Types (o : JsObject.obj V) (k : string) (v : V).

Lemma put_absent o k v :
  JsObject.get o k = None -> JsObject.put o k v = o ++ [(k, v)].
Proof.
  induction o as [|[k' v'] o IH]; simpl; auto.
  destruct (String.eqb k k'); [discriminate|].
  intros H. now rewrite IH.
Qed.

Lemma put_same o k v :
  JsObject.get o k = Some v -> JsObject.put o k v = o.
Proof.
  induction o as [|[k' v'] o IH]; simpl; [discriminate|].
  destruct (String.eqb k k') eqn:E.
  - apply String.eqb_eq in E. intros [= ->]. now subst.
  - intros H. now rewrite IH.
Qed.

Lemma get_delete_same o k : JsObject.get (snd (JsObject.delete o k)) k = None.
Proof.
  unfold JsObject.delete. simpl.
  induction o as [|[k' v'] o IH]; simpl; auto.
  destruct (String.eqb k k') eqn:E; simpl; auto. now rewrite E.
Qed.

Lemma get_delete_other o k k' :
  k' <> k ->
  JsObject.get (snd (JsObject.delete o k)) k' = JsObject.get o k'.
Proof.
  unfold JsObject.delete. simpl. intros Hne.
  induction o as [|[k0 v0] o IH]; simpl; auto.
  destruct (String.eqb k k0) eqn:E; simpl.
  - apply String.eqb_eq in E. subst k0.
    destruct (String.eqb k' k) eqn:E'; auto.
    apply String.eqb_eq in E'. contradiction.
  - now rewrite IH.
Qed.

Lemma delete_put_absent o k v :
  JsObject.get o k = None ->
  snd (JsObject.delete (JsObject.put o k v) k) = o.
Proof.
  intros H. rewrite (put_absent _ _ _ H).
  pose proof (delete_absent _ _ H) as Hd.
  unfold JsObject.delete in *. simpl in *.
  rewrite filter_app, Hd. simpl. rewrite String.eqb_refl. simpl.
  apply app_nil_r.
Qed.

Lemma index_entries_named_last o e :
  JsObject.array_index (fst e) = None ->
  JsObject.index_entries (o ++ [e]) = JsObject.index_entries o.
Proof.
  intros He. induction o as [|e0 o IH]; simpl.
  - now rewrite He.
  - now rewrite IH.
Qed.

Lemma own_entries_named_last o e :
  JsObject.array_index (fst e) = None ->
  JsObject.own_entries (o ++ [e]) = JsObject.own_entries o ++ [e].
Proof.
  intros He. unfold JsObject.own_entries, JsObject.named_entries.
  rewrite (index_entries_named_last _ _ He), filter_app. simpl.
  rewrite He. now rewrite app_assoc.
Qed.

End MoreTableFacts.

(** X1.  [set(name, p)] with a Plugin instance never throws, whatever the
    name other than [__proto__]; afterwards [get(name)] is [p], every other
    name reads as before, and [prioritized] and [directories] are
    untouched. *)
Theorem set_then_get (name : string) (p : loc) (this : Registry.t) :
  name <> "__proto__" ->
  exists this',
    Registry.set name (Registry.IsPlugin p) this = (Return p, this') /\
    Registry.get name this' = Some p /\
    (forall other, other <> name ->
                   Registry.get other this' = Registry.get other this) /\
    Registry.prioritized this' = Registry.prioritized this /\
    Registry.directories this' = Registry.directories this.
Proof.
  intros _. eexists. split; [reflexivity|]. unfold Registry.get. simpl.
  repeat split.
  - apply get_put_same.
  - intros other Hne. now apply get_put_other.
Qed.

Lemma set_then_get_witness :
  exists this',
    Registry.set "toString" (Registry.IsPlugin 1) (fst Samples.independent)
    = (Return 1, this') /\
    Registry.get "toString" this' = Some 1 /\
    (forall other, other <> "toString" ->
       Registry.get other this' =
       Registry.get other (fst Samples.independent)) /\
    Registry.prioritized this' = [] /\
    Registry.directories this' = ["/srv/plugins"].
Proof.
  apply (set_then_get "toString" 1 (fst Samples.independent)).
  discriminate.
Defined.

(** X2.  A plugin set under a name that is new, is not an array index and
    is not [__proto__] is enumerated last: [Object.keys] and [_.values] of
    the map are those of before followed by the new name and plugin, so
    that [prioritize()] meets such plugins in the order of their
    registration. *)
Theorem set_new_name_is_last (name : string) (p : loc) (this : Registry.t) :
  name <> "__proto__" ->
  Registry.get name this = None ->
  JsObject.array_index name = None ->
  JsObject.keys (Registry.plugins
                   (snd (Registry.set name (Registry.IsPlugin p) this)))
  = JsObject.keys (Registry.plugins this) ++ [name] /\
  JsObject.values (Registry.plugins
                     (snd (Registry.set name (Registry.IsPlugin p) this)))
  = JsObject.values (Registry.plugins this) ++ [p].
Proof.
  unfold Registry.get. intros _ Habsent Hname. simpl.
  rewrite (put_absent _ _ _ Habsent).
  unfold JsObject.keys, JsObject.values.
  rewrite (own_entries_named_last _ (name, p) Hname), !map_app.
  split; reflexivity.
Qed.

Lemma set_new_name_is_last_witness :
  JsObject.keys (Registry.plugins
                   (snd (Registry.set "d" (Registry.IsPlugin 7)
                           (fst Samples.independent))))
  = ["a"; "b"; "c"; "d"] /\
  JsObject.values (Registry.plugins
                     (snd (Registry.set "d" (Registry.IsPlugin 7)
                             (fst Samples.independent))))
  = [0; 1; 2; 7].
Proof.
  apply (set_new_name_is_last "d" 7 (fst Samples.independent));
    [discriminate|reflexivity|reflexivity].
Defined.

(** X3.  [del(name)] returns true for every name, registered or not;
    afterwards [get(name)] is undefined, unless the map inherits the name
    from [Object.prototype]; every other name reads as before, and
    [prioritized] still holds what it held. *)
Theorem del_then_get (name : string) (this : Registry.t) :
  fst (Registry.del name this) = true /\
  (JsObject.inherited name = false ->
   Registry.get name (snd (Registry.del name this)) = None) /\
  (forall other, other <> name ->
     Registry.get other (snd (Registry.del name this)) =
     Registry.get other this) /\
  Registry.prioritized (snd (Registry.del name this)) =
  Registry.prioritized this.
Proof.
  unfold Registry.del, Registry.get.
  pose proof (get_delete_same (Registry.plugins this) name) as Hsame.
  pose proof (fun other => get_delete_other (Registry.plugins this) name other)
    as Hother.
  destruct (JsObject.delete (Registry.plugins this) name) as [answer o] eqn:E.
  unfold JsObject.delete in E. injection E as <- <-.
  simpl in *. repeat split; auto.
Qed.

Lemma del_then_get_witness :
  Registry.get "b" (snd (Registry.del "b" (fst Samples.independent))) = None.
Proof.
  apply (proj1 (proj2 (del_then_get "b" (fst Samples.independent)))).
  reflexivity.
Defined.

(** X4.  Setting a plugin under a name other than [__proto__] that was
    absent, and deleting that name again, gives back the registry as it
    was. *)
Theorem set_then_del (name : string) (p : loc) (this : Registry.t) :
  name <> "__proto__" ->
  Registry.get name this = None ->
  Registry.del name (snd (Registry.set name (Registry.IsPlugin p) this))
  = (true, this).
Proof.
  unfold Registry.get. intros _ Habsent.
  unfold Registry.del. simpl.
  pose proof (delete_put_absent _ _ p Habsent) as Hd.
  unfold JsObject.delete in *. simpl in *. rewrite Hd.
  destruct this; reflexivity.
Qed.

Lemma set_then_del_witness :
  Registry.del "d" (snd (Registry.set "d" (Registry.IsPlugin 7)
                           (fst Samples.independent)))
  = (true, fst Samples.independent).
Proof. apply set_then_del; [discriminate|reflexivity]. Defined.

(** X5.  [plugin(name, metadata)], for a name other than [__proto__],
    registers what [new Plugin] made, and [plugin(name)] without metadata
    then returns that very plugin, leaving registry and store alone; for a
    name never registered, and not inherited from [Object.prototype],
    [plugin(name)] returns undefined and does not throw. *)
Theorem plugin_registers_then_retrieves
    (new_Plugin : string -> Metadata.t -> heap -> completion loc * heap)
    (name : string) (metadata : Metadata.t)
    (this : Registry.t) (h h' : heap) (p : loc) :
  (name <> "__proto__" ->
   new_Plugin name metadata h = (Return p, h') ->
   exists this',
     Registry.plugin new_Plugin name (Some metadata) this h
     = (Return (Some p), this', h') /\
     Registry.plugin new_Plugin name None this' h'
     = (Return (Some p), this', h')) /\
  (JsObject.inherited name = false ->
   Registry.get name this = None ->
   Registry.plugin new_Plugin name None this h = (Return None, this, h)).
Proof.
  split.
  - intros _ Hnew. unfold Registry.plugin. rewrite Hnew. simpl. eexists.
    split; [reflexivity|]. unfold Registry.get. simpl.
    now rewrite get_put_same.
  - intros _ Habsent. unfold Registry.plugin. now rewrite Habsent.
Qed.

Lemma plugin_registers_then_retrieves_witness :
  (exists this',
     Registry.plugin Samples.new_Plugin "d"
       (Some (Samples.metadata "1.0.0" []))
       (fst Samples.independent) (snd Samples.independent)
     = (Return (Some 3), this',
        snd (Samples.new_Plugin "d" (Samples.metadata "1.0.0" [])
               (snd Samples.independent))) /\
     Registry.plugin Samples.new_Plugin "d" None this'
       (snd (Samples.new_Plugin "d" (Samples.metadata "1.0.0" [])
               (snd Samples.independent)))
     = (Return (Some 3), this',
        snd (Samples.new_Plugin "d" (Samples.metadata "1.0.0" [])
               (snd Samples.independent)))) /\
  Registry.plugin Samples.new_Plugin "d" None
    (fst Samples.independent) (snd Samples.independent)
  = (Return None, fst Samples.independent, snd Samples.independent).
Proof.
  split.
  - apply (proj1 (plugin_registers_then_retrieves Samples.new_Plugin "d"
                    (Samples.metadata "1.0.0" [])
                    (fst Samples.independent) (snd Samples.independent)
                    _ 3)); [discriminate|reflexivity].
  - apply (proj2 (plugin_registers_then_retrieves Samples.new_Plugin "d"
                    (Samples.metadata "1.0.0" [])
                    (fst Samples.independent) (snd Samples.independent)
                    (snd Samples.independent) 0)); reflexivity.
Defined.

(** ** Further properties of [resolve] *)

Section MoreForEachFacts.
Context {A S : Type}.
Variable f : A -> S -> completion unit * S.

(** A loop all of whose callbacks return, returns. *)
Lemma forEach_returns (I : S -> Prop) l :
  (forall y s c s', In y l -> I s -> f y s = (c, s') -> I s') ->
  (forall y s, In y l -> I s -> exists s', f y s = (Return tt, s')) ->
  forall s, I s -> exists s', forEach f l s = (Return tt, s').
Proof.
  induction l as [|y l IH]; intros Hkeep Hret s Hs; simpl; [eauto|].
  destruct (Hret y s (or_introl eq_refl) Hs) as [s1 Hy]. rewrite Hy.
  apply IH.
  - intros z t c t' Hz. apply Hkeep. now right.
  - intros z t Hz. apply Hret. now right.
  - apply (Hkeep y s _ _ (or_introl eq_refl) Hs Hy).
Qed.

(** A loop whose callbacks return without changing the state leaves it. *)
Lemma forEach_noop l s :
  (forall y, In y l -> f y s = (Return tt, s)) ->
  forEach f l s = (Return tt, s).
Proof.
  induction l as [|y l IH]; intros H; simpl; auto.
  rewrite (H y (or_introl eq_refl)). apply IH.
  intros z Hz. apply H. now right.
Qed.

End MoreForEachFacts.

Lemma plugin_fields_eq (a b : Plugin.t) :
  Plugin.name a = Plugin.name b ->
  Plugin.metadata a = Plugin.metadata b ->
  Plugin.dependencies a = Plugin.dependencies b ->
  Plugin.dependents a = Plugin.dependents b ->
  a = b.
Proof. destruct a, b; simpl; intros; subst; reflexivity. Qed.

Lemma lookup_Some_put {V} (d : option (JsObject.obj V)) k v :
  lookup d k = Some v ->
  Some (JsObject.put (JsObject.or_empty d) k v) = d.
Proof.
  unfold lookup. destruct d as [o|]; simpl; [|discriminate].
  intros H. now rewrite (put_same _ _ _ H).
Qed.

Section MoreResolveFacts.
Variable satisfies : string -> string -> bool.
Variable this : Registry.t.

Lemma resolve_same_plugins h c h' :
  Registry.resolve satisfies this h = (c, h') -> same_plugins h h'.
Proof.
  unfold Registry.resolve.
  apply (forEach_invariant _ (same_plugins h)).
  - intros y s c' s' _. apply resolve_plugin_same_plugins.
  - apply same_plugins_refl.
Qed.

(** An entry leaves alone every plugin other than the two it links. *)
Lemma resolve_entry_others P entry h c h' :
  Registry.resolve_entry satisfies this P entry h = (c, h') ->
  next h' = next h /\
  forall p, p <> P ->
    (forall B, JsObject.get (Registry.plugins this) (fst entry) = Some B ->
               p <> B) ->
    cell h' p = cell h p.
Proof.
  unfold Registry.resolve_entry. destruct entry as [n r]. simpl.
  destruct (JsObject.get (Registry.plugins this) n) as [B|].
  - destruct (negb _); intros [= <- <-]; split; auto. simpl.
    intros p HP HB. specialize (HB B eq_refl).
    apply Nat.eqb_neq in HP, HB. now rewrite HP, HB.
  - destruct (JsObject.inherited n); intros [= <- <-]; auto.
Qed.

(** An entry that can be linked returns, in any store holding the same
    plugins. *)
Lemma resolve_entry_linkable h t P entry :
  same_plugins h t ->
  linkable satisfies this h entry ->
  exists t', Registry.resolve_entry satisfies this P entry t = (Return tt, t').
Proof.
  intros Ht [B [HB Hsat]]. destruct entry as [n r]. simpl in *.
  unfold Registry.resolve_entry. unfold Registry.get in HB. rewrite HB.
  rewrite (proj2 (Ht B)), Hsat. simpl. eauto.
Qed.

(** An entry that cannot be linked throws, the same error in any store
    holding the same plugins. *)
Lemma resolve_entry_not_linkable h P entry :
  ~ linkable satisfies this h entry ->
  exists e, forall t,
    same_plugins h t ->
    Registry.resolve_entry satisfies this P entry t = (Throw e, t).
Proof.
  intros Hnot. destruct entry as [n r]. unfold Registry.resolve_entry.
  destruct (JsObject.get (Registry.plugins this) n) as [B|] eqn:HB.
  - destruct (satisfies (Metadata.version (Plugin.metadata (cell h B))) r)
      eqn:Hsat.
    + exfalso. apply Hnot. exists B. auto.
    + eexists. intros t Ht. rewrite (proj2 (Ht B)), Hsat. reflexivity.
  - destruct (JsObject.inherited n); eexists; intros t _; reflexivity.
Qed.

Lemma resolve_returns_linkable h h' key P entry :
  Registry.resolve satisfies this h = (Return tt, h') ->
  In (key, P) (JsObject.own_entries (Registry.plugins this)) ->
  In entry (JsObject.own_entries (declared h P)) ->
  linkable satisfies this h entry.
Proof.
  intros Hres HP Hentry.
  destruct entry as [n r]. unfold linkable, Registry.get. simpl.
  destruct (JsObject.get (Registry.plugins this) n) as [B|] eqn:HB.
  - destruct (satisfies (Metadata.version (Plugin.metadata (cell h B))) r)
      eqn:Hsat; [eauto|].
    exfalso.
    destruct (resolve_entry_not_linkable h P (n, r)) as [e He].
    { intros [B' [HB' Hsat']]. unfold Registry.get in HB'. simpl in *.
      congruence. }
    destruct (proj1 (resolve_stops_at_entry satisfies this h key P (n, r) e
                       HP Hentry He)) as [e' [h'' Hthrow]].
    congruence.
  - exfalso.
    destruct (resolve_entry_not_linkable h P (n, r)) as [e He].
    { intros [B' [HB' _]]. unfold Registry.get in HB'. simpl in *.
      congruence. }
    destruct (proj1 (resolve_stops_at_entry satisfies this h key P (n, r) e
                       HP Hentry He)) as [e' [h'' Hthrow]].
    congruence.
Qed.

Lemma resolve_linkable_returns h :
  (forall key P entry,
     In (key, P) (JsObject.own_entries (Registry.plugins this)) ->
     In entry (JsObject.own_entries (declared h P)) ->
     linkable satisfies this h entry) ->
  exists h', Registry.resolve satisfies this h = (Return tt, h').
Proof.
  intros Hall. unfold Registry.resolve.
  apply (forEach_returns _ (same_plugins h)).
  - intros y s c s' _. apply resolve_plugin_same_plugins.
  - intros [key P] s HP Hs. unfold Registry.resolve_plugin.
    apply (forEach_returns _ (same_plugins h)); auto.
    + intros y t c t' _. apply resolve_entry_same_plugins.
    + intros entry t Hentry Ht.
      apply (resolve_entry_linkable h t P entry Ht).
      apply (Hall key P entry HP).
      fold (declared s P) in Hentry.
      now rewrite (same_plugins_declared h s P Hs) in Hentry.
  - apply same_plugins_refl.
Qed.

End MoreResolveFacts.

(** X6.  [resolve()] returns exactly when every dependency declared by a
    registered plugin names a registered plugin whose version satisfies the
    declared range; otherwise it throws. *)
Theorem resolve_returns_iff_linkable
    (satisfies : string -> string -> bool) (this : Registry.t) (h : heap) :
  (exists h', Registry.resolve satisfies this h = (Return tt, h')) <->
  (forall key P entry,
     In (key, P) (JsObject.own_entries (Registry.plugins this)) ->
     In entry (JsObject.own_entries (declared h P)) ->
     linkable satisfies this h entry).
Proof.
  split.
  - intros [h' Hres] key P entry.
    apply (resolve_returns_linkable satisfies this h h' key P entry Hres).
  - apply resolve_linkable_returns.
Qed.

(** X7.  Whether it returns or throws, [resolve()] changes no plugin's
    name or metadata, allocates nothing, and leaves every plugin that is
    not in the registry map exactly as it was (a plugin removed by [del]
    keeps the links it had). *)
Theorem resolve_touches_registered_links_only
    (satisfies : string -> string -> bool) (this : Registry.t)
    (h h' : heap) (c : completion unit) :
  Registry.resolve satisfies this h = (c, h') ->
  same_plugins h h' /\
  next h' = next h /\
  (forall p, ~ registered this p -> cell h' p = cell h p).
Proof.
  intros Hres. split; [apply (resolve_same_plugins _ _ _ _ _ Hres)|].
  revert Hres. unfold Registry.resolve.
  apply (forEach_invariant _
           (fun t => next t = next h /\
                     forall p, ~ registered this p -> cell t p = cell h p));
    auto.
  intros [key P] s c' s' HP Hs. unfold Registry.resolve_plugin.
  apply (forEach_invariant _
           (fun t => next t = next h /\
                     forall p, ~ registered this p -> cell t p = cell h p));
    auto.
  intros entry t c'' t' _ [Hnext Hcells] Hentry.
  apply resolve_entry_others in Hentry. destruct Hentry as [Hn Hc].
  split; [congruence|]. intros p Hp. rewrite Hc; auto.
  - intros ->. apply Hp. apply (registration_registered _ _ _ HP).
  - intros B HB ->. apply Hp. apply (get_values _ _ _ HB).
Qed.

(** X8.  When no registered plugin declares a dependency, [resolve()]
    returns and the store is the one it was given. *)
Theorem resolve_without_declarations
    (satisfies : string -> string -> bool) (this : Registry.t) (h : heap) :
  (forall p, registered this p -> declared h p = JsObject.empty) ->
  Registry.resolve satisfies this h = (Return tt, h).
Proof.
  intros Hnone. unfold Registry.resolve. apply forEach_noop.
  intros [key P] HP. unfold Registry.resolve_plugin.
  fold (declared h P).
  now rewrite (Hnone P (registration_registered _ _ _ HP)).
Qed.

Lemma resolve_without_declarations_witness :
  Registry.resolve Samples.satisfies
    (fst Samples.independent) (snd Samples.independent)
  = (Return tt, snd Samples.independent).
Proof.
  apply resolve_without_declarations.
  intros p Hp. vm_compute in Hp.
  destruct Hp as [<-|[<-|[<-|[]]]]; reflexivity.
Defined.

Lemma resolve_returns_iff_linkable_witness :
  linkable Samples.satisfies (fst Samples.pair) (snd Samples.pair)
    ("b", "^1.0.0").
Proof.
  apply (proj1 (resolve_returns_iff_linkable Samples.satisfies
                  (fst Samples.pair) (snd Samples.pair))
           (ex_intro _ (snd (Samples.resolved Samples.pair)) eq_refl)
           "a" 0 ("b", "^1.0.0")).
  - vm_compute. auto.
  - vm_compute. auto.
Defined.

Lemma resolve_touches_registered_links_only_witness :
  same_plugins (snd Samples.pair) (snd (Samples.resolved Samples.pair)) /\
  next (snd (Samples.resolved Samples.pair)) = 2 /\
  (forall p, ~ registered (fst Samples.pair) p ->
             cell (snd (Samples.resolved Samples.pair)) p =
             cell (snd Samples.pair) p).
Proof.
  apply (resolve_touches_registered_links_only Samples.satisfies
           (fst Samples.pair) (snd Samples.pair)
           (snd (Samples.resolved Samples.pair)) (Return tt)).
  reflexivity.
Defined.

Section ResolveTwice.
Variable satisfies : string -> string -> bool.
Variable this : Registry.t.

(** When [resolve()] returns, every declared dependency is linked in the
    store it leaves, both ways, registered plugins bearing distinct
    names. *)
Lemma resolve_links_in_place h h1 key P n r :
  Registry.resolve satisfies this h = (Return tt, h1) ->
  (forall k Q k' Q',
     In (k, Q) (JsObject.own_entries (Registry.plugins this)) ->
     In (k', Q') (JsObject.own_entries (Registry.plugins this)) ->
     Plugin.name (cell h Q) = Plugin.name (cell h Q') -> Q = Q') ->
  In (key, P) (JsObject.own_entries (Registry.plugins this)) ->
  In (n, r) (JsObject.own_entries (declared h P)) ->
  exists B,
    JsObject.get (Registry.plugins this) n = Some B /\
    satisfies (Metadata.version (Plugin.metadata (cell h B))) r = true /\
    lookup (Plugin.dependencies (cell h1 P)) n = Some B /\
    lookup (Plugin.dependents (cell h1 B)) (Plugin.name (cell h P)) = Some P.
Proof.
  intros Hres Hunique HP Hentry.
  destruct (resolve_returns_linkable satisfies this h h1 key P (n, r)
              Hres HP Hentry) as [B [HB Hsat]].
  unfold Registry.get in HB. simpl in HB, Hsat.
  exists B. repeat split; auto.
  - apply (resolve_reaches satisfies this
             (fun t => lookup (Plugin.dependencies (cell t P)) n = Some B)
             h key P (n, r) HP Hentry); auto.
    + intros key' P' [n' r'] t t' _ Ht Hq H.
      apply resolve_entry_returns in H.
      destruct H as [B' [HB' [_ [_ [Hdeps _]]]]].
      rewrite Hdeps. destruct (Nat.eqb P P'); auto.
      unfold lookup in *. simpl.
      destruct (String.eqb_spec n n') as [<-|Hne].
      * assert (B' = B) by congruence. subst B'. apply get_put_same.
      * rewrite get_put_other; auto.
    + intros t t' Ht H. apply resolve_entry_returns in H.
      destruct H as [B' [HB' [_ [_ [Hdeps _]]]]].
      assert (B' = B) by congruence. subst B'.
      rewrite Hdeps, Nat.eqb_refl. unfold lookup. simpl.
      apply get_put_same.
  - apply (resolve_reaches satisfies this
             (fun t => lookup (Plugin.dependents (cell t B))
                         (Plugin.name (cell h P)) = Some P)
             h key P (n, r) HP Hentry); auto.
    + intros key' P' [n' r'] t t' HP' Ht Hq H.
      apply resolve_entry_returns in H.
      destruct H as [B' [HB' [_ [_ [_ Hdpts]]]]].
      rewrite Hdpts. destruct (Nat.eqb B B'); auto.
      unfold lookup in *. simpl.
      destruct (String.eqb_spec (Plugin.name (cell h P))
                  (Plugin.name (cell t P'))) as [Heq|Hne].
      * assert (P = P').
        { apply (Hunique key P key' P' HP HP').
          rewrite Heq. apply (proj1 (Ht P')). }
        subst P'. rewrite <- Heq. apply get_put_same.
      * rewrite get_put_other; auto.
    + intros t t' Ht H. apply resolve_entry_returns in H.
      destruct H as [B' [HB' [_ [_ [_ Hdpts]]]]].
      assert (B' = B) by congruence. subst B'.
      rewrite Hdpts, Nat.eqb_refl. unfold lookup. simpl.
      rewrite (proj1 (Ht P)). apply get_put_same.
Qed.

(** An entry whose links are in place returns and changes no plugin. *)
Lemma resolve_entry_again h1 t P n r B :
  (forall p, cell t p = cell h1 p) ->
  JsObject.get (Registry.plugins this) n = Some B ->
  satisfies (Metadata.version (Plugin.metadata (cell h1 B))) r = true ->
  lookup (Plugin.dependencies (cell h1 P)) n = Some B ->
  lookup (Plugin.dependents (cell h1 B)) (Plugin.name (cell h1 P)) = Some P ->
  exists t',
    Registry.resolve_entry satisfies this P (n, r) t = (Return tt, t') /\
    forall p, cell t' p = cell h1 p.
Proof.
  intros Ht HB Hsat Hdeps Hdpts.
  assert (Hrun : exists t',
            Registry.resolve_entry satisfies this P (n, r) t
            = (Return tt, t')).
  { unfold Registry.resolve_entry. rewrite HB, (Ht B), Hsat. simpl. eauto. }
  destruct Hrun as [t' Hrun]. exists t'. split; auto.
  apply resolve_entry_returns in Hrun.
  destruct Hrun as [B' [HB' [_ [Hsame [Hd1 Hd2]]]]].
  assert (B' = B) by congruence. subst B'.
  intros p. apply plugin_fields_eq.
  - rewrite (proj1 (Hsame p)). now rewrite Ht.
  - rewrite (proj2 (Hsame p)). now rewrite Ht.
  - rewrite Hd1. destruct (Nat.eqb p P) eqn:E.
    + apply Nat.eqb_eq in E. subst p. rewrite (Ht P).
      now apply lookup_Some_put.
    + now rewrite Ht.
  - rewrite Hd2. destruct (Nat.eqb p B) eqn:E.
    + apply Nat.eqb_eq in E. subst p. rewrite (Ht B), (Ht P).
      now apply lookup_Some_put.
    + now rewrite Ht.
Qed.

End ResolveTwice.

(** X9.  [resolve()] can be run again: when it has returned, registered
    plugins bearing distinct names, a second [resolve()] on the store it
    left returns too and leaves every plugin as the first run left it. *)
Theorem resolve_twice
    (satisfies : string -> string -> bool) (this : Registry.t)
    (h h1 : heap) :
  Registry.resolve satisfies this h = (Return tt, h1) ->
  (forall k Q k' Q',
     In (k, Q) (JsObject.own_entries (Registry.plugins this)) ->
     In (k', Q') (JsObject.own_entries (Registry.plugins this)) ->
     Plugin.name (cell h Q) = Plugin.name (cell h Q') -> Q = Q') ->
  exists h2,
    Registry.resolve satisfies this h1 = (Return tt, h2) /\
    forall p, cell h2 p = cell h1 p.
Proof.
  intros Hres Hunique.
  pose proof (resolve_same_plugins _ _ _ _ _ Hres) as Hsame.
  assert (Hstep : forall key P entry t,
            In (key, P) (JsObject.own_entries (Registry.plugins this)) ->
            In entry (JsObject.own_entries (declared h P)) ->
            (forall p, cell t p = cell h1 p) ->
            exists t',
              Registry.resolve_entry satisfies this P entry t
              = (Return tt, t') /\
              forall p, cell t' p = cell h1 p).
  { intros key P [n r] t HP Hentry Ht.
    destruct (resolve_links_in_place satisfies this h h1 key P n r
                Hres Hunique HP Hentry) as [B [HB [Hsat [Hdeps Hdpts]]]].
    apply (resolve_entry_again satisfies this h1 t P n r B); auto.
    - now rewrite (proj2 (Hsame B)).
    - now rewrite (proj1 (Hsame P)). }
  assert (Hdecl : forall t P, (forall p, cell t p = cell h1 p) ->
                              declared t P = declared h P).
  { intros t P Ht. unfold declared.
    now rewrite (Ht P), (proj2 (Hsame P)). }
  assert (Hkeep : forall y s c s',
            In y (JsObject.own_entries (Registry.plugins this)) ->
            (forall p, cell s p = cell h1 p) ->
            Registry.resolve_plugin satisfies this y s = (c, s') ->
            forall p, cell s' p = cell h1 p).
  { intros [key P] s c s' HP Hs. unfold Registry.resolve_plugin.
    fold (declared s P). rewrite (Hdecl s P Hs).
    apply (forEach_invariant _ (fun t => forall p, cell t p = cell h1 p));
      auto.
    intros entry t c' t' Hentry Ht Hrun.
    destruct (Hstep key P entry t HP Hentry Ht) as [t'' [Hrun' Ht'']].
    congruence. }
  assert (Hret : exists h2, Registry.resolve satisfies this h1
                            = (Return tt, h2)).
  { unfold Registry.resolve.
    apply (forEach_returns _ (fun t => forall p, cell t p = cell h1 p));
      auto.
    intros [key P] s HP Hs. unfold Registry.resolve_plugin.
    fold (declared s P). rewrite (Hdecl s P Hs).
    apply (forEach_returns _ (fun t => forall p, cell t p = cell h1 p));
      auto.
    - intros entry t c' t' Hentry Ht Hrun.
      destruct (Hstep key P entry t HP Hentry Ht) as [t'' [Hrun' Ht'']].
      congruence.
    - intros entry t Hentry Ht.
      destruct (Hstep key P entry t HP Hentry Ht) as [t' [Hrun _]]. eauto. }
  destruct Hret as [h2 Hh2]. exists h2. split; auto.
  revert Hh2. unfold Registry.resolve.
  apply (forEach_invariant _ (fun t => forall p, cell t p = cell h1 p)); auto.
Qed.

Lemma resolve_twice_witness :
  exists h2,
    Registry.resolve Samples.satisfies (fst Samples.chain)
      (snd (Samples.resolved Samples.chain)) = (Return tt, h2) /\
    forall p, cell h2 p = cell (snd (Samples.resolved Samples.chain)) p.
Proof.
  apply (resolve_twice Samples.satisfies (fst Samples.chain)
           (snd Samples.chain) (snd (Samples.resolved Samples.chain))).
  - reflexivity.
  - intros k Q k' Q' HQ HQ' Hname. vm_compute in HQ, HQ'.
    destruct HQ as [[= <- <-]|[[= <- <-]|[[= <- <-]|[]]]];
      destruct HQ' as [[= <- <-]|[[= <- <-]|[[= <- <-]|[]]]];
      try reflexivity; vm_compute in Hname; discriminate.
Defined.

(** ** Further properties of [satisfy] and [prioritize] *)

Lemma placed_after_refl h ordered : placed_after h ordered ordered.
Proof.
  exists []. split; [now rewrite app_nil_r|].
  intros i p Hi Hle. apply nth_error_None in Hle. congruence.
Qed.

Lemma placed_after_push h ordered t p :
  placed_after h ordered t ->
  Registry.isSatisfied h p t = true ->
  placed_after h ordered (t ++ [p]).
Proof.
  intros [rest [-> Hafter]] Hs.
  exists (rest ++ [p]). split; [now rewrite app_assoc|].
  intros i x Hi Hle q Hq.
  destruct (Nat.lt_ge_cases i (List.length (ordered ++ rest))) as [Hlt|Hge].
  - rewrite nth_error_app1 in Hi by assumption.
    destruct (Hafter i x Hi Hle q Hq) as [j [Hj Hnth]].
    exists j. split; auto. rewrite nth_error_app1 by lia. assumption.
  - rewrite nth_error_app2 in Hi by assumption.
    destruct (i - List.length (ordered ++ rest)) as [|k] eqn:Hk;
      simpl in Hi; [|destruct k; discriminate].
    injection Hi as <-.
    pose proof (proj1 (isSatisfied_true h p _) Hs q Hq) as Hin.
    destruct (In_nth_error _ _ Hin) as [j Hj].
    assert (j < List.length (ordered ++ rest))
      by (apply nth_error_Some; congruence).
    exists j. split; [lia|]. rewrite nth_error_app1 by lia. assumption.
Qed.

Lemma placed_after_trans h ordered target result :
  placed_after h ordered target ->
  placed_after h target result ->
  placed_after h ordered result.
Proof.
  intros [rest [-> Hafter]] [rest' [-> Hafter']].
  exists (rest ++ rest'). split; [now rewrite app_assoc|].
  intros i p Hi Hle q Hq.
  destruct (Nat.lt_ge_cases i (List.length (ordered ++ rest))) as [Hlt|Hge].
  - rewrite nth_error_app1 in Hi by assumption.
    destruct (Hafter i p Hi Hle q Hq) as [j [Hj Hnth]].
    exists j. split; auto. rewrite nth_error_app1 by lia. assumption.
  - apply (Hafter' i p Hi Hge q Hq).
Qed.

Lemma satisfy_placed_after h depth ordered remaining result :
  Registry.satisfy depth h ordered remaining = Some result ->
  placed_after h ordered result.
Proof.
  revert ordered remaining.
  induction depth as [|depth IH]; intros ordered remaining; simpl;
    [discriminate|].
  destruct (forEach_move (Registry.isSatisfied h) (List.length remaining) 0
              remaining ordered) as [source target] eqn:Hpass.
  assert (Hpl : placed_after h ordered target).
  { apply (forEach_move_invariant _ (placed_after h ordered) _ _ _ _ _ _
             (fun p t Ht Hs => placed_after_push h ordered t p Ht Hs)
             Hpass (placed_after_refl h ordered)). }
  destruct source as [|s source].
  - now intros [= <-].
  - intros H. apply (placed_after_trans h ordered target result Hpl).
    apply (IH _ _ H).
Qed.

(** X10.  Whenever [satisfy(ordered, remaining)] returns, the result is
    [ordered], unchanged and in front, followed by a rearrangement of
    [remaining] in which every plugin stands after all the plugins in its
    [dependencies]. *)
Theorem satisfy_appends_in_dependency_order
    (h : heap) (depth : nat) (ordered remaining result : list loc) :
  Registry.satisfy depth h ordered remaining = Some result ->
  exists rest,
    result = ordered ++ rest /\
    Permutation rest remaining /\
    forall i p, nth_error result i = Some p -> List.length ordered <= i ->
    forall q, depends_on h p q ->
    exists j, j < i /\ nth_error result j = Some q.
Proof.
  intros H.
  destruct (satisfy_placed_after _ _ _ _ _ H) as [rest [Hres Hafter]].
  exists rest. repeat split; auto.
  apply satisfy_Permutation in H. rewrite Hres in H.
  now apply Permutation_app_inv_l in H.
Qed.

Lemma satisfy_appends_in_dependency_order_witness :
  exists rest,
    [2; 1; 0] = [2] ++ rest /\
    Permutation rest [0; 1] /\
    forall i p, nth_error [2; 1; 0] i = Some p -> List.length [2] <= i ->
    forall q, depends_on (snd (Samples.resolved Samples.chain)) p q ->
    exists j, j < i /\ nth_error [2; 1; 0] j = Some q.
Proof.
  apply (satisfy_appends_in_dependency_order
           (snd (Samples.resolved Samples.chain)) 3 [2] [0; 1] [2; 1; 0]).
  reflexivity.
Defined.

(** X11.  [prioritize()] returns only for a registry whose links are sound:
    whenever it returns, every dependency of a registered plugin is itself
    registered, no registered plugin reaches itself, and the order lists
    dependencies first.  A link to a plugin that was deleted or replaced
    after [resolve()] therefore keeps [prioritize()] from returning. *)
Theorem prioritize_returns_only_on_sound_links
    (depth : nat) (this this' : Registry.t) (h : heap) :
  Registry.prioritize depth this h = Some this' ->
  dependencies_first h (Registry.prioritized this') /\
  links_closed this h /\
  acyclic this h.
Proof.
  intros H. apply prioritize_returns in H. destruct H as [_ [Hperm Hfirst]].
  assert (Hin : forall x, In x (Registry.prioritized this') <->
                          registered this x).
  { intros x. unfold registered. split; apply Permutation_in;
      [exact Hperm | symmetry; exact Hperm]. }
  repeat split; auto.
  - intros p q Hp Hq. apply Hin in Hp.
    destruct (In_nth_error _ _ Hp) as [i Hi].
    destruct (Hfirst i p Hi q Hq) as [j [_ Hj]].
    apply Hin. apply (nth_error_In _ _ Hj).
  - intros p Hp. apply (dependencies_first_no_cycle h _ p Hfirst).
    now apply Hin.
Qed.

Lemma prioritize_returns_only_on_sound_links_witness :
  dependencies_first (snd (Samples.resolved Samples.chain)) [2; 1; 0] /\
  links_closed (fst Samples.chain) (snd (Samples.resolved Samples.chain)) /\
  acyclic (fst Samples.chain) (snd (Samples.resolved Samples.chain)).
Proof.
  apply (prioritize_returns_only_on_sound_links 3 (fst Samples.chain)
           {| Registry.plugins := Registry.plugins (fst Samples.chain);
              Registry.prioritized := [2; 1; 0];
              Registry.directories := ["/srv/plugins"] |}
           (snd (Samples.resolved Samples.chain))).
  reflexivity.
Defined.

(** ** Plugins without dependencies *)

Lemma evens_cons {A} (y : A) l : evens (y :: l) = y :: odds l.
Proof. destruct l; reflexivity. Qed.

Lemma evens_tl_In {A} (x : A) l :
  (In x (evens l) -> In x l) /\ (In x (odds l) -> In x l).
Proof.
  induction l as [|y l [IHe IHo]]; [split; intros []|].
  split.
  - rewrite evens_cons. intros [->|H]; [now left|right; auto].
  - unfold odds. simpl. intros H. right. auto.
Qed.

Lemma evens_tl_length {A} (l : list A) :
  List.length (evens l) <= List.length l /\
  List.length (odds l) <= List.length (tl l).
Proof.
  induction l as [|y l [IHe IHo]]; [split; auto|].
  split.
  - rewrite evens_cons. simpl.
    destruct l; simpl in *; lia.
  - unfold odds. simpl. exact IHe.
Qed.

Lemma odds_shorter {A} (l : list A) :
  l <> [] -> List.length (odds l) < List.length l.
Proof.
  destruct l as [|x l]; [congruence|]. intros _.
  pose proof (proj2 (evens_tl_length (x :: l))). simpl in *. lia.
Qed.

(** The rearrangement does not depend on the bound, once it is large
    enough. *)
Lemma rearrange_enough {A} (l : list A) n m :
  List.length l <= n -> List.length l <= m -> rearrange n l = rearrange m l.
Proof.
  revert m l. induction n as [|n IH]; intros m l Hn Hm.
  - destruct l; [|simpl in Hn; lia]. destruct m; reflexivity.
  - destruct l as [|x l]; [destruct m; reflexivity|].
    destruct m as [|m]; [simpl in Hm; lia|].
    cbn [rearrange]. f_equal.
    pose proof (odds_shorter (x :: l) ltac:(congruence)) as Hlt.
    apply IH; lia.
Qed.

Lemma rearrange_step {A} (l : list A) :
  rearrange (List.length l) l
  = evens l ++ rearrange (List.length (odds l)) (odds l).
Proof.
  destruct l as [|x l]; [reflexivity|].
  cbn [rearrange List.length]. f_equal.
  pose proof (odds_shorter (x :: l) ltac:(congruence)) as Hlt.
  apply rearrange_enough; simpl in *; lia.
Qed.

Lemma splice1_app {A} (pre : list A) x rest :
  splice1 (List.length pre) (pre ++ x :: rest) = pre ++ rest.
Proof. induction pre as [|y pre IH]; simpl; [reflexivity|now rewrite IH]. Qed.

Section MoveAll.
Variable test : loc -> list loc -> bool.

(** Past the end of the array nothing is visited. *)
Lemma forEach_move_beyond steps index source target :
  List.length source <= index ->
  forEach_move test steps index source target = (source, target).
Proof.
  revert index. induction steps as [|steps IH]; intros index Hle; simpl; auto.
  rewrite (proj2 (nth_error_None source index) Hle). apply IH. lia.
Qed.

(** When every element passes the test, a traversal moves the elements it
    meets at even distances and leaves the others. *)
Lemma forEach_move_all steps pre rest target :
  (forall p t, In p rest -> test p t = true) ->
  List.length rest <= steps ->
  forEach_move test steps (List.length pre) (pre ++ rest) target
  = (pre ++ odds rest, target ++ evens rest).
Proof.
  revert pre rest target.
  induction steps as [|steps IH]; intros pre rest target Hall Hlen.
  - destruct rest; [|simpl in Hlen; lia]. simpl. now rewrite !app_nil_r.
  - destruct rest as [|x rest].
    + rewrite forEach_move_beyond by (rewrite app_nil_r; lia).
      simpl. now rewrite !app_nil_r.
    + cbn [forEach_move].
      rewrite nth_error_app2 by lia. rewrite Nat.sub_diag. simpl.
      rewrite (Hall x target (or_introl eq_refl)), splice1_app.
      destruct rest as [|y rest].
      * rewrite forEach_move_beyond by (rewrite app_nil_r; lia).
        reflexivity.
      * replace (pre ++ y :: rest) with ((pre ++ [y]) ++ rest)
          by (now rewrite <- app_assoc).
        replace (S (List.length pre)) with (List.length (pre ++ [y]))
          by (rewrite length_app; simpl; lia).
        rewrite IH.
        -- change (odds (x :: y :: rest)) with (evens (y :: rest)).
           rewrite evens_cons. now rewrite <- !app_assoc.
        -- intros p t Hp. apply Hall. right. now right.
        -- simpl in Hlen. lia.
Qed.

End MoveAll.

Lemma hasNoDependencies_isSatisfied h p target :
  Registry.hasNoDependencies h p = true ->
  Registry.isSatisfied h p target = true.
Proof.
  intros H. apply isSatisfied_true. intros q Hq.
  destruct (hasNoDependencies_true h p q H Hq).
Qed.

(** Of plugins without dependencies [satisfy] moves every other one in
    each call. *)
Lemma satisfy_all_ready h depth ordered remaining :
  (forall p, In p remaining -> Registry.hasNoDependencies h p = true) ->
  List.length remaining < depth ->
  Registry.satisfy depth h ordered remaining
  = Some (ordered ++ rearrange (List.length remaining) remaining).
Proof.
  revert ordered remaining.
  induction depth as [|depth IH]; intros ordered remaining Hall Hdepth;
    [lia|].
  cbn [Registry.satisfy].
  assert (Hpass : forEach_move (Registry.isSatisfied h)
                    (List.length remaining) 0 remaining ordered
                  = (odds remaining, ordered ++ evens remaining)).
  { apply (forEach_move_all (Registry.isSatisfied h)
             (List.length remaining) [] remaining ordered);
      auto using hasNoDependencies_isSatisfied. }
  rewrite Hpass. clear Hpass.
  rewrite rearrange_step.
  destruct (odds remaining) as [|y rest] eqn:Ho.
  - simpl. now rewrite app_nil_r.
  - rewrite <- Ho.
    assert (Hne : remaining <> []) by (intros ->; discriminate).
    pose proof (odds_shorter remaining Hne) as Hlt.
    rewrite IH.
    + now rewrite <- app_assoc.
    + intros p Hp. apply Hall. now apply (proj2 (evens_tl_In p remaining)).
    + lia.
Qed.

(** X12.  When no registered plugin has dependencies (none was resolved or
    none declares any), [prioritize()] returns, and its order is not the
    order of registration: it takes the plugins at the even places 0, 2,
    4, ... of [_.values], then rearranges those at the odd places in the
    same way. *)
Theorem prioritize_without_dependencies
    (this : Registry.t) (h : heap) (depth : nat) :
  (forall p, registered this p -> Registry.hasNoDependencies h p = true) ->
  List.length (JsObject.values (Registry.plugins this)) < depth ->
  option_map Registry.prioritized (Registry.prioritize depth this h)
  = Some (rearrange (List.length (JsObject.values (Registry.plugins this)))
            (JsObject.values (Registry.plugins this))).
Proof.
  unfold registered. intros Hall Hdepth. unfold Registry.prioritize.
  set (values := JsObject.values (Registry.plugins this)) in *.
  assert (Hpass : forEach_move
                    (fun plugin _ => Registry.hasNoDependencies h plugin)
                    (List.length values) 0 values []
                  = (odds values, evens values)).
  { apply (forEach_move_all
             (fun plugin _ => Registry.hasNoDependencies h plugin)
             (List.length values) [] values []); auto. }
  rewrite Hpass. clear Hpass.
  rewrite rearrange_step.
  destruct (Nat.eq_dec (List.length values) 0) as [Hz|Hnz].
  - destruct values; [|discriminate]. destruct depth; [lia|]. reflexivity.
  - assert (Hne : values <> []) by (intros ->; apply Hnz; reflexivity).
    pose proof (odds_shorter values Hne) as Hlt.
    rewrite satisfy_all_ready.
    + simpl option_map. now rewrite PluginCollection_id.
    + intros p Hp. apply Hall. now apply (proj2 (evens_tl_In p values)).
    + lia.
Qed.

Lemma prioritize_without_dependencies_witness :
  option_map Registry.prioritized
    (Registry.prioritize 4 (fst Samples.independent)
       (snd Samples.independent))
  = Some [0; 2; 1].
Proof.
  apply (prioritize_without_dependencies (fst Samples.independent)
           (snd Samples.independent) 4).
  - intros p Hp. vm_compute in Hp.
    destruct Hp as [<-|[<-|[<-|[]]]]; reflexivity.
  - vm_compute. lia.
Defined.

(** ** [initialize] *)

Section InitializeFacts.
Variable World : Type.
Variable f : loc -> World -> completion unit * World.

(** The record kept by [logged] while a loop runs. *)
Lemma forEach_logged l log w c log' w' :
  forEach (logged f) l (log, w) = (c, (log', w')) ->
  forEach f l w = (c, w') /\
  ((c = Return tt /\ log' = log ++ l) \/
   (exists e before p after w0,
      c = Throw e /\
      l = before ++ p :: after /\
      log' = log ++ before ++ [p] /\
      forEach f before w = (Return tt, w0) /\
      f p w0 = (Throw e, w'))).
Proof.
  revert log w. induction l as [|x l IH]; intros log w; simpl.
  - intros [= <- <- <-]. split; auto. left. now rewrite app_nil_r.
  - unfold logged at 1. simpl.
    destruct (f x w) as [[[]|e] w1] eqn:Hx.
    + intros H. apply IH in H. destruct H as [Hrun Hlog]. split; auto.
      destruct Hlog as [[-> ->]|[e [before [p [after [w0 H]]]]]].
      * left. split; auto. now rewrite <- app_assoc.
      * destruct H as [-> [-> [-> [Hb Hp]]]].
        right. exists e, (x :: before), p, after, w0.
        repeat split; auto.
        -- now rewrite <- app_assoc.
        -- simpl. now rewrite Hx.
    + intros [= <- <- <-]. split; auto.
      right. exists e, [], x, l, w. repeat split; auto.
Qed.

End InitializeFacts.

Section AllReturn.
Variable World : Type.
Variable f : loc -> World -> completion unit * World.

Lemma all_return_forEach l w w' :
  all_return f l w w' -> forEach f l w = (Return tt, w').
Proof.
  induction 1 as [w|p l w w1 w' Hp _ IH]; simpl; auto.
  now rewrite Hp.
Qed.

(** Initializers that never throw make the loop return. *)
Lemma forEach_total l w :
  (forall p w0, exists w1, f p w0 = (Return tt, w1)) ->
  exists w', forEach f l w = (Return tt, w').
Proof.
  intros Htotal. apply (forEach_returns f (fun _ => True)); auto.
Qed.

End AllReturn.

(** X13.  [initialize()] calls [plugin.initialize()] on the plugins of
    [prioritized], in that order and on nothing else.  When all the calls
    return, [initialize()] returns, in the state the last call left; when
    one throws, the calls before it having returned, [initialize()] throws
    that error at once, in the state that call left: the plugins after it
    in [prioritized] are not initialized. *)
Theorem initialize_in_prioritized_order
    (World : Type) (plugin_initialize : loc -> World -> completion unit * World)
    (this : Registry.t) (w : World) :
  (forall w',
     all_return plugin_initialize (Registry.prioritized this) w w' ->
     Registry.initialize World plugin_initialize this w = (Return tt, w')) /\
  (forall before p after w0 e w',
     Registry.prioritized this = before ++ p :: after ->
     all_return plugin_initialize before w w0 ->
     plugin_initialize p w0 = (Throw e, w') ->
     Registry.initialize World plugin_initialize this w = (Throw e, w')) /\
  (forall c log w',
     Registry.initialize (list loc * World) (logged plugin_initialize)
       this ([], w) = (c, (log, w')) ->
     Registry.initialize World plugin_initialize this w = (c, w') /\
     ((c = Return tt /\ log = Registry.prioritized this) \/
      (exists e before p after,
         c = Throw e /\
         Registry.prioritized this = before ++ p :: after /\
         log = before ++ [p]))).
Proof.
  unfold Registry.initialize. repeat split.
  - intros w'. apply all_return_forEach.
  - intros before p after w0 e w' Hsplit Hbefore Hp. rewrite Hsplit.
    apply (forEach_first_throw _ _ _ _ _ w0); auto.
    now apply all_return_forEach.
  - apply forEach_logged in H. tauto.
  - apply forEach_logged in H. destruct H as [_ Hlog].
    destruct Hlog as [[-> ->]|[e [before [p [after [w0 H]]]]]].
    + auto.
    + right. exists e, before, p, after. tauto.
Qed.

Lemma initialize_in_prioritized_order_witness :
  Registry.initialize nat
    (fun p calls => if Nat.eqb p 1
                    then (Throw (mkError "initializer failed"), calls)
                    else (Return tt, S calls))
    {| Registry.plugins := JsObject.empty;
       Registry.prioritized := [2; 1; 0];
       Registry.directories := [] |} 0
  = (Throw (mkError "initializer failed"), 1) /\
  Registry.initialize nat
    (fun p calls => (Return tt, S calls))
    {| Registry.plugins := JsObject.empty;
       Registry.prioritized := [2; 1; 0];
       Registry.directories := [] |} 0
  = (Return tt, 3).
Proof.
  split.
  - apply (proj1 (proj2 (initialize_in_prioritized_order nat
                           (fun p calls =>
                              if Nat.eqb p 1
                              then (Throw (mkError "initializer failed"),
                                    calls)
                              else (Return tt, S calls))
                           {| Registry.plugins := JsObject.empty;
                              Registry.prioritized := [2; 1; 0];
                              Registry.directories := [] |} 0))
             [2] 1 [0] 1 (mkError "initializer failed") 1 eq_refl).
    + econstructor; [reflexivity|constructor].
    + reflexivity.
  - apply (proj1 (initialize_in_prioritized_order nat
                    (fun p calls => (Return tt, S calls))
                    {| Registry.plugins := JsObject.empty;
                       Registry.prioritized := [2; 1; 0];
                       Registry.directories := [] |} 0) 3).
    repeat (econstructor; [reflexivity|]). constructor.
Defined.

Lemma dependencies_first_prefix h l1 l2 :
  dependencies_first h (l1 ++ l2) -> dependencies_first h l1.
Proof.
  intros H i p Hi q Hq.
  assert (Hlt : i < List.length l1) by (apply nth_error_Some; congruence).
  destruct (H i p) with (q := q) as [j [Hj Hnth]]; auto.
  - rewrite nth_error_app1 by assumption. exact Hi.
  - exists j. split; auto. rewrite nth_error_app1 in Hnth by lia. exact Hnth.
Qed.

(** X14.  [prioritize().initialize()]: when the links of the registered
    plugins lead to registered plugins and form no cycle, [prioritize()]
    returns, and [initialize()] then initializes every plugin after all the
    plugins in its [dependencies]; this holds of the calls made even when
    one of them throws.  When no initializer throws, [initialize()]
    returns and has initialized every registered plugin, as often as the
    map holds it. *)
Theorem bootstrap_initializes_dependencies_first
    (World : Type) (plugin_initialize : loc -> World -> completion unit * World)
    (this : Registry.t) (h : heap) (depth : nat) :
  links_closed this h ->
  acyclic this h ->
  List.length (JsObject.values (Registry.plugins this)) < depth ->
  exists this',
    Registry.prioritize depth this h = Some this' /\
    (forall w c log w',
       Registry.initialize (list loc * World) (logged plugin_initialize)
         this' ([], w) = (c, (log, w')) ->
       dependencies_first h log) /\
    (forall w,
       (forall p w0, exists w1, plugin_initialize p w0 = (Return tt, w1)) ->
       exists log w',
         Registry.initialize World plugin_initialize this' w
         = (Return tt, w') /\
         Registry.initialize (list loc * World) (logged plugin_initialize)
           this' ([], w) = (Return tt, (log, w')) /\
         Permutation log (JsObject.values (Registry.plugins this))).
Proof.
  intros Hclosed Hacyclic Hdepth.
  destruct (prioritize_returns_on_sound_links this h depth
              Hclosed Hacyclic Hdepth)
    as [this' [Hp [Hfirst Hperm]]].
  exists this'. repeat split; auto.
  - intros w c log w' Hinit. unfold Registry.initialize in Hinit.
    apply forEach_logged in Hinit. destruct Hinit as [_ Hlog].
    destruct Hlog as [[-> ->]|[e [before [p [after [w0 H]]]]]].
    + simpl. auto.
    + destruct H as [-> [Hsplit [-> _]]].
      simpl. rewrite Hsplit in Hfirst.
      replace (before ++ p :: after) with ((before ++ [p]) ++ after)
        in Hfirst by (now rewrite <- app_assoc).
      apply (dependencies_first_prefix _ _ _ Hfirst).
  - intros w Htotal. unfold Registry.initialize.
    destruct (forEach_total World plugin_initialize
                (Registry.prioritized this') w Htotal) as [w' Hrun].
    destruct (forEach (logged plugin_initialize)
                (Registry.prioritized this') ([], w))
      as [c [log w'']] eqn:Hlogged.
    apply forEach_logged in Hlogged. destruct Hlogged as [Hrun' Hlog].
    rewrite Hrun in Hrun'. injection Hrun' as <- <-.
    destruct Hlog as [[_ ->]|[e [before [p [after [w0 [H _]]]]]]];
      [|discriminate].
    exists (Registry.prioritized this'), w'. simpl. auto.
Qed.

Lemma bootstrap_initializes_dependencies_first_witness :
  exists this',
    Registry.prioritize 4 (fst Samples.chain)
      (snd (Samples.resolved Samples.chain)) = Some this' /\
    (forall w c log w',
       Registry.initialize (list loc * nat)
         (logged (fun _ calls => (Return tt, S calls)))
         this' ([], w) = (c, (log, w')) ->
       dependencies_first (snd (Samples.resolved Samples.chain)) log) /\
    (forall w,
       (forall (p : loc) (w0 : nat),
          exists w1, (Return tt, S w0) = (@Return unit tt, w1)) ->
       exists log w',
         Registry.initialize nat (fun _ calls => (Return tt, S calls))
           this' w = (Return tt, w') /\
         Registry.initialize (list loc * nat)
           (logged (fun _ calls => (Return tt, S calls)))
           this' ([], w) = (Return tt, (log, w')) /\
         Permutation log
           (JsObject.values (Registry.plugins (fst Samples.chain)))).
Proof.
  apply (bootstrap_initializes_dependencies_first nat
           (fun _ calls => (Return tt, S calls))
           (fst Samples.chain)
           (snd (Samples.resolved Samples.chain)) 4).
  - intros p q Hp Hq. vm_compute in Hp.
    destruct Hp as [<-|[<-|[<-|[]]]]; vm_compute in Hq;
      repeat (destruct Hq as [<-|Hq]; [vm_compute; auto|]); destruct Hq.
  - apply (ranked_acyclic _ _ (fun p => 2 - p)).
    intros p q Hq. unfold depends_on in Hq.
    destruct p as [|[|[|p]]]; vm_compute in Hq;
      repeat (destruct Hq as [<-|Hq]; [simpl; lia|]); destruct Hq.
  - vm_compute. lia.
Defined.

(** ** [DependencyCollection.filter] *)

Lemma subsequence_refl {A} (l : list A) : subsequence l l.
Proof. induction l; constructor; auto. Qed.

Lemma lodash_filter_from_subsequence p array index rest :
  subsequence (DependencyCollection.lodash_filter_from p array index rest)
    rest.
Proof.
  revert index. induction rest as [|value rest IH]; intros index; simpl.
  - constructor.
  - destruct (DependencyCollection.holds p value index array);
      constructor; auto.
Qed.

Lemma lodash_filter_from_In p array index rest d :
  In d (DependencyCollection.lodash_filter_from p array index rest) <->
  exists i, nth_error rest i = Some d /\
            DependencyCollection.holds p d (index + i) array = true.
Proof.
  revert index. induction rest as [|value rest IH]; intros index; simpl.
  - split; [intros []|]. intros [[|i] [Hi _]]; discriminate.
  - destruct (DependencyCollection.holds p value index array) eqn:Hv.
    + simpl. rewrite IH. split.
      * intros [<-|[i [Hi Hh]]].
        -- exists 0. rewrite Nat.add_0_r. auto.
        -- exists (S i). rewrite Nat.add_succ_r. auto.
      * intros [[|i] [Hi Hh]].
        -- left. simpl in Hi. congruence.
        -- right. exists i. rewrite Nat.add_succ_r in Hh. auto.
    + rewrite IH. split.
      * intros [i [Hi Hh]]. exists (S i). rewrite Nat.add_succ_r. auto.
      * intros [[|i] [Hi Hh]].
        -- simpl in Hi. injection Hi as <-.
           rewrite Nat.add_0_r in Hh. congruence.
        -- exists i. rewrite Nat.add_succ_r in Hh. auto.
Qed.

Lemma lodash_filter_by_value p array index rest :
  by_value p ->
  DependencyCollection.lodash_filter_from p array index rest =
  List.filter (fun value => DependencyCollection.holds p value 0 []) rest.
Proof.
  intros Hp. revert index.
  induction rest as [|value rest IH]; intros index; simpl; auto.
  rewrite (Hp value index array 0 []), IH. reflexivity.
Qed.

Lemma filter_by_value p this :
  by_value p ->
  DependencyCollection.filter p this =
  List.filter (fun value => DependencyCollection.holds p value 0 []) this.
Proof.
  intros Hp. unfold DependencyCollection.filter. rewrite constructor_items.
  apply lodash_filter_by_value. exact Hp.
Qed.

Lemma filter_filter_comm {A} (f g : A -> bool) l :
  List.filter f (List.filter g l) = List.filter g (List.filter f l).
Proof.
  induction l as [|x l IH]; simpl; auto.
  destruct (f x) eqn:Hf, (g x) eqn:Hg; simpl; rewrite ?Hf, ?Hg, IH; auto.
Qed.

Lemma filter_filter_same {A} (f : A -> bool) l :
  List.filter f (List.filter f l) = List.filter f l.
Proof.
  induction l as [|x l IH]; simpl; auto.
  destruct (f x) eqn:Hf; simpl; rewrite ?Hf, IH; auto.
Qed.

Lemma lodash_filter_from_indexed p array index rest :
  DependencyCollection.lodash_filter_from p array index rest =
  map fst
    (List.filter
       (fun x => DependencyCollection.holds p (fst x) (snd x) array)
       (combine rest (seq index (List.length rest)))).
Proof.
  revert index. induction rest as [|value rest IH]; intros index; simpl; auto.
  rewrite IH.
  destruct (DependencyCollection.holds p value index array); reflexivity.
Qed.

(** X15.  [filter(predicate)] makes a collection of exactly the
    descriptors at which the predicate holds (called with the descriptor,
    its index and the collection), each as often as it stands at such an
    index, in the order they have in the collection: it is the collection
    paired with its indices, narrowed to the pairs at which the predicate
    holds, the indices dropped again. *)
Theorem filter_keeps_matching_in_order
    (p : DependencyCollection.predicate)
    (this : list DependencyCollection.Descriptor) :
  DependencyCollection.filter p this =
  map fst
    (List.filter
       (fun x => DependencyCollection.holds p (fst x) (snd x) this)
       (combine this (seq 0 (List.length this)))) /\
  subsequence (DependencyCollection.filter p this) this /\
  forall d,
    In d (DependencyCollection.filter p this) <->
    exists i, nth_error this i = Some d /\
              DependencyCollection.holds p d i this = true.
Proof.
  unfold DependencyCollection.filter. rewrite constructor_items. simpl.
  unfold DependencyCollection.lodash_filter. repeat split.
  - apply lodash_filter_from_indexed.
  - apply lodash_filter_from_subsequence.
  - apply (lodash_filter_from_In p this 0 this d).
  - apply (lodash_filter_from_In p this 0 this d).
Qed.

(** X16.  Filters that look at the descriptor only, as every object
    predicate does, can be applied in either order with the same result,
    and applying one twice changes nothing more. *)
Theorem filter_by_value_commutes
    (p q : DependencyCollection.predicate)
    (this : list DependencyCollection.Descriptor) :
  by_value p -> by_value q ->
  DependencyCollection.filter p (DependencyCollection.filter q this) =
  DependencyCollection.filter q (DependencyCollection.filter p this) /\
  DependencyCollection.filter p (DependencyCollection.filter p this) =
  DependencyCollection.filter p this.
Proof.
  intros Hp Hq. rewrite !(filter_by_value p), !(filter_by_value q); auto.
  split; [apply filter_filter_comm | apply filter_filter_same].
Qed.

Lemma filter_by_value_commutes_witness :
  DependencyCollection.filter
    (DependencyCollection.ByFields None (Some "factory"))
    (DependencyCollection.filter
       (DependencyCollection.ByFields (Some "a") None)
       [Samples.descriptor "a"; Samples.descriptor "b"]) =
  DependencyCollection.filter
    (DependencyCollection.ByFields (Some "a") None)
    (DependencyCollection.filter
       (DependencyCollection.ByFields None (Some "factory"))
       [Samples.descriptor "a"; Samples.descriptor "b"]) /\
  DependencyCollection.filter
    (DependencyCollection.ByFields None (Some "factory"))
    (DependencyCollection.filter
       (DependencyCollection.ByFields None (Some "factory"))
       [Samples.descriptor "a"; Samples.descriptor "b"]) =
  DependencyCollection.filter
    (DependencyCollection.ByFields None (Some "factory"))
    [Samples.descriptor "a"; Samples.descriptor "b"].
Proof.
  apply (filter_by_value_commutes
           (DependencyCollection.ByFields None (Some "factory"))
           (DependencyCollection.ByFields (Some "a") None)
           [Samples.descriptor "a"; Samples.descriptor "b"]);
    intros value index array index' array'; reflexivity.
Defined.

(** ** The constructor of the registry *)

Lemma uniq_In l x : In x (uniq l) <-> In x l.
Proof.
  induction l as [|y l IH]; simpl; [tauto|].
  rewrite filter_In, IH. split.
  - intros [->|[H _]]; auto.
  - intros [->|H]; auto.
    destruct (String.eqb_spec y x) as [->|Hne]; auto.
Qed.

Lemma uniq_NoDup l : NoDup (uniq l).
Proof.
  induction l as [|y l IH]; simpl; constructor.
  - rewrite filter_In. intros [_ H]. now rewrite String.eqb_refl in H.
  - now apply NoDup_filter.
Qed.

(** Elements in this order in a narrowed list stand in this order in the
    list. *)
Lemma filter_keeps_order {A} (f : A -> bool) l i j x y :
  nth_error (List.filter f l) i = Some x ->
  nth_error (List.filter f l) j = Some y ->
  i < j ->
  exists i' j', i' < j' /\ nth_error l i' = Some x /\ nth_error l j' = Some y.
Proof.
  revert i j. induction l as [|a l IH]; intros i j; simpl.
  - destruct i; discriminate.
  - destruct (f a).
    + destruct i as [|i]; destruct j as [|j]; simpl; try lia.
      * intros [= <-] Hy _.
        destruct (In_nth_error _ _
                    (proj1 (proj1 (filter_In f y l) (nth_error_In _ _ Hy))))
          as [j' Hj'].
        exists 0, (S j'). repeat split; auto. lia.
      * intros Hx Hy Hlt.
        destruct (IH i j Hx Hy ltac:(lia)) as [i' [j' [H1 [H2 H3]]]].
        exists (S i'), (S j'). repeat split; auto. lia.
    + intros Hx Hy Hlt.
      destruct (IH i j Hx Hy Hlt) as [i' [j' [H1 [H2 H3]]]].
      exists (S i'), (S j'). repeat split; auto. lia.
Qed.

(** [uniq] keeps the order of the first occurrences. *)
Lemma uniq_first_occurrences l i j x y :
  nth_error (uniq l) i = Some x ->
  nth_error (uniq l) j = Some y ->
  i < j ->
  exists i0, nth_error l i0 = Some x /\
             forall j0, nth_error l j0 = Some y -> i0 < j0.
Proof.
  revert i j. induction l as [|a l IH]; intros i j; simpl.
  - destruct i; discriminate.
  - destruct i as [|i]; destruct j as [|j]; simpl; try lia.
    + intros [= <-] Hy _. exists 0. split; auto.
      intros [|j0]; simpl; [|lia].
      intros [= ->]. apply nth_error_In in Hy. apply filter_In in Hy.
      destruct Hy as [_ Hy]. now rewrite String.eqb_refl in Hy.
    + intros Hx Hy Hlt.
      assert (Hya : y <> a).
      { intros ->. apply nth_error_In in Hy. apply filter_In in Hy.
        destruct Hy as [_ Hy]. now rewrite String.eqb_refl in Hy. }
      destruct (filter_keeps_order _ _ _ _ _ _ Hx Hy ltac:(lia))
        as [i' [j' [Hlt' [Hx' Hy']]]].
      destruct (IH i' j' Hx' Hy' Hlt') as [i0 [Hi0 Hfirst]].
      exists (S i0). split; auto.
      intros [|j0]; simpl.
      * intros [= ->]. contradiction.
      * intros Hj0. specialize (Hfirst j0 Hj0). lia.
Qed.

(** X17.  A new registry holds no plugin and an empty [prioritized]; its
    [directories] are the directories given (or the default one when none
    is given), each once, in the order of their first occurrences: a
    directory stands before another when it occurs in what is given before
    the other occurs at all. *)
Theorem constructor_directories
    (default_directory : string) (options : option (list string)) :
  let given := match options with
               | Some d => d
               | None => [default_directory]
               end in
  let this := Registry.constructor default_directory options in
  NoDup (Registry.directories this) /\
  (forall d, In d (Registry.directories this) <-> In d given) /\
  (forall i j x y,
     nth_error (Registry.directories this) i = Some x ->
     nth_error (Registry.directories this) j = Some y ->
     i < j ->
     exists i0, nth_error given i0 = Some x /\
                forall j0, nth_error given j0 = Some y -> i0 < j0) /\
  Registry.plugins this = JsObject.empty /\
  Registry.prioritized this = [].
Proof.
  simpl. repeat split; auto using uniq_NoDup; try apply uniq_In.
  intros i j x y. apply uniq_first_occurrences.
Qed.

(** ** Names that are array indices *)

Lemma index_entries_none {V} (o : JsObject.obj V) :
  (forall e, In e o -> JsObject.array_index (fst e) = None) ->
  JsObject.index_entries o = [] /\ JsObject.named_entries o = o.
Proof.
  unfold JsObject.named_entries.
  induction o as [|e o IH]; intros H; simpl; auto.
  rewrite (H e (or_introl eq_refl)).
  destruct IH as [IH1 IH2]; [intros x Hx; apply H; now right|].
  rewrite IH1, IH2. auto.
Qed.

Lemma index_entries_index_last {V} (o : JsObject.obj V) e n :
  (forall x, In x o -> JsObject.array_index (fst x) = None) ->
  JsObject.array_index (fst e) = Some n ->
  JsObject.index_entries (o ++ [e]) = [(n, e)] /\
  JsObject.named_entries (o ++ [e]) = o.
Proof.
  intros Ho He. unfold JsObject.named_entries.
  induction o as [|x o IH]; simpl.
  - now rewrite He.
  - rewrite (Ho x (or_introl eq_refl)).
    destruct IH as [IH1 IH2]; [intros y Hy; apply Ho; now right|].
    rewrite IH1, IH2. auto.
Qed.

(** X18.  The order of registration is not always the order of
    enumeration: a plugin set under a new name that is an array index
    ("0", "7", "42") is enumerated by [Object.keys] and [_.values] before
    all the plugins registered, earlier, under names that are not. *)
Theorem set_index_name_is_first
    (name : string) (n : N) (p : loc) (this : Registry.t) :
  Registry.get name this = None ->
  JsObject.array_index name = Some n ->
  (forall e, In e (Registry.plugins this) ->
             JsObject.array_index (fst e) = None) ->
  JsObject.keys (Registry.plugins
                   (snd (Registry.set name (Registry.IsPlugin p) this)))
  = name :: JsObject.keys (Registry.plugins this) /\
  JsObject.values (Registry.plugins
                     (snd (Registry.set name (Registry.IsPlugin p) this)))
  = p :: JsObject.values (Registry.plugins this).
Proof.
  unfold Registry.get. intros Habsent Hname Hnamed. simpl.
  rewrite (put_absent _ _ _ Habsent).
  unfold JsObject.keys, JsObject.values, JsObject.own_entries.
  destruct (index_entries_index_last (Registry.plugins this) (name, p) n
              Hnamed Hname) as [-> ->].
  destruct (index_entries_none (Registry.plugins this) Hnamed) as [-> ->].
  split; reflexivity.
Qed.

Lemma set_index_name_is_first_witness :
  JsObject.keys (Registry.plugins
                   (snd (Registry.set "7" (Registry.IsPlugin 3)
                           (fst Samples.independent))))
  = ["7"; "a"; "b"; "c"] /\
  JsObject.values (Registry.plugins
                     (snd (Registry.set "7" (Registry.IsPlugin 3)
                             (fst Samples.independent))))
  = [3; 0; 1; 2].
Proof.
  apply (set_index_name_is_first "7" 7 3 (fst Samples.independent)).
  - reflexivity.
  - reflexivity.
  - intros e He. vm_compute in He.
    destruct He as [<-|[<-|[<-|[]]]]; reflexivity.
Defined.

(** ** Dependencies under inherited names *)

(** X19.  A declared dependency on a name that is not registered but that
    the map inherits from [Object.prototype] (constructor, toString,
    valueOf, ...) passes the test of presence of [resolve()]: no
    missing-dependency error is raised; [resolve()] throws a TypeError when
    it reads the version, at the first entry that fails, and that entry
    links nothing. *)
Theorem resolve_inherited_dependency
    (satisfies : string -> string -> bool)
    (this : Registry.t) (h : heap) (key : string) (A : loc)
    (name range : string) :
  Registry.get key this = Some A ->
  JsObject.get (declared h A) name = Some range ->
  Registry.get name this = None ->
  JsObject.inherited name = true ->
  (exists e h', Registry.resolve satisfies this h = (Throw e, h')) /\
  (forall before after dbefore dafter h1 h2,
     JsObject.own_entries (Registry.plugins this) =
       before ++ (key, A) :: after ->
     forEach (Registry.resolve_plugin satisfies this) before h =
       (Return tt, h1) ->
     JsObject.own_entries (declared h A) =
       dbefore ++ (name, range) :: dafter ->
     forEach (Registry.resolve_entry satisfies this A) dbefore h1 =
       (Return tt, h2) ->
     exists m,
       Registry.resolve satisfies this h = (Throw (mkTypeError m), h2)).
Proof.
  intros HA Hdecl Hmissing Hinh.
  destruct (resolve_stops_at_entry satisfies this h key A (name, range)
              (TypeError_of_undefined "version")) as [Hthrows Hfirst].
  - apply own_entries_In. now apply get_In.
  - apply own_entries_In. now apply get_In.
  - intros t _. unfold Registry.resolve_entry.
    unfold Registry.get in Hmissing. now rewrite Hmissing, Hinh.
  - split; auto.
    intros before after dbefore dafter h1 h2 H1 H2 H3 H4.
    eexists. apply (Hfirst before after dbefore dafter h1 h2 H1 H2 H3 H4).
Qed.

Lemma resolve_inherited_dependency_witness :
  exists m,
    Registry.resolve Samples.satisfies
      (fst Samples.inherited_dependency) (snd Samples.inherited_dependency)
    = (Throw (mkTypeError m), snd Samples.inherited_dependency).
Proof.
  apply (proj2 (resolve_inherited_dependency Samples.satisfies
                  (fst Samples.inherited_dependency)
                  (snd Samples.inherited_dependency)
                  "alpha" 0 "constructor" "*"
                  eq_refl eq_refl eq_refl eq_refl)
           [] [] [] [] (snd Samples.inherited_dependency)
           (snd Samples.inherited_dependency)
           eq_refl eq_refl eq_refl eq_refl).
Defined.
